(** * Runtime reconciliation tracker (runtime_tracker.py)

    A shallow embedding of [RuntimeRecord] and [ProcessRuntimeTracker] and the
    properties of the reconciliation store, followed by the parts of
    main.py and process_manager.py around it: [_runtime_metadata],
    [_serialize_completion], the listing, sorting and paging of processes
    ([list_processes], [pick_top_processes], [get_processes]) and
    [compute_rr_features_for_pid].

    Modelling choices.
    - Timestamps and durations (Python floats) are rationals [Q]; arithmetic
      is exact, rounding and non-finite values are outside the model.
    - [RuntimeRecord] objects are mutable and shared by reference: they live
      in an object store [objs] (a list indexed by reference), and the dict
      [_active] and the deque [_completed] hold references.
    - [_active] is a Python dict: an association list in insertion order
      with unique keys (order decides the order of completions).
    - [time.time()] is an explicit argument of every method that reads the
      clock; [psutil.Process(pid).create_time()] is an explicit function
      from pids to outcomes.
    - A method returns [None] only when a reference it holds is not in the
      object store; this never happens from a constructed tracker
      (see [run_total]). *)

From Stdlib Require Import QArith Qabs Lqa.
From Stdlib Require OrderedTypeEx.
From stdpp Require Import base option list gmap strings sorting.

Local Open Scope string_scope.
Local Open Scope list_scope.
Local Open Scope nat_scope.

(** ** Python primitives on floats *)

(** [x > y] *)
Definition py_gt (x y : Q) : bool := negb (Qle_bool x y).

(** [max(x, y)]: the first argument unless the second is greater. *)
Definition py_max (x y : Q) : Q := if py_gt y x then y else x.

(** [abs(x)] *)
Definition py_abs (x : Q) : Q := Qabs x.

(** [x or y] on an optional float: [None] and [0.0] are falsy. *)
Definition py_or (x : option Q) (y : Q) : Q :=
  match x with
  | None => y
  | Some v => if Qeq_bool v 0 then y else v
  end.

(** ** Python dict with integer keys, in insertion order *)

Section dict.
Context {V : Type}.

(** [d.get(k)] *)
Fixpoint dict_get (d : list (Z * V)) (k : Z) : option V :=
  match d with
  | [] => None
  | (k', v) :: d' => if decide (k = k') then Some v else dict_get d' k
  end.

(** [d[k] = v]: an existing key keeps its position, a new key goes last. *)
Fixpoint dict_set (d : list (Z * V)) (k : Z) (v : V) : list (Z * V) :=
  match d with
  | [] => [(k, v)]
  | (k', v') :: d' =>
      if decide (k = k') then (k, v) :: d' else (k', v') :: dict_set d' k v
  end.

(** the dict left by [d.pop(k, None)] *)
Fixpoint dict_pop (d : list (Z * V)) (k : Z) : list (Z * V) :=
  match d with
  | [] => []
  | (k', v') :: d' =>
      if decide (k = k') then d' else (k', v') :: dict_pop d' k
  end.

(** [list(d.keys())] *)
Definition dict_keys (d : list (Z * V)) : list Z := d.*1.
End dict.

(** ** collections.deque(maxlen=n) *)

(** [d.append(x)]: push on the right, then drop the leftmost element when
    the bound is exceeded. *)
Definition deque_append {A} (maxlen : nat) (d : list A) (x : A) : list A :=
  let d' := d ++ [x] in
  if (maxlen <? length d')%nat then drop 1 d' else d'.

(** ** RuntimeRecord *)

Record RuntimeRecord := mkRecord {
  pid : Z;
  name : string;
  create_time : Q;
  predicted : Q;
  first_seen : Q;
  last_seen : Q;
  actual_duration : option Q;
  completed_at : option Q
}.

(** [RuntimeRecord.elapsed(now)]; [clock] is what [time.time()] returns. *)
Definition elapsed (self : RuntimeRecord) (now : option Q) (clock : Q) : Q :=
  match actual_duration self with
  | Some d => d
  | None =>
      let now := py_or now clock in
      py_max (now - create_time self)%Q 0%Q
  end.

(** [RuntimeRecord.status] *)
Definition status (self : RuntimeRecord) : string :=
  match actual_duration self with
  | Some _ => "completed"
  | None => "running"
  end.

(** The writes of [update_running] on a record of the same identity. *)
Definition touch (nm : string) (pred now : Q) (r : RuntimeRecord) : RuntimeRecord :=
  {| pid := pid r; name := nm; create_time := create_time r;
     predicted := pred; first_seen := first_seen r; last_seen := now;
     actual_duration := actual_duration r; completed_at := completed_at r |}.

(** The writes of [mark_missing] on a record it closes:
    [completed_at = now], then
    [actual_duration = max(completed_at - create_time, 0.0)]. *)
Definition complete (now : Q) (r : RuntimeRecord) : RuntimeRecord :=
  {| pid := pid r; name := name r; create_time := create_time r;
     predicted := predicted r; first_seen := first_seen r;
     last_seen := last_seen r;
     actual_duration := Some (py_max (now - create_time r)%Q 0%Q);
     completed_at := Some now |}.

(** ** ProcessRuntimeTracker *)

(** References into the object store. *)
Abbreviation ref := nat (only parsing).

Record ProcessRuntimeTracker := mkTracker {
  objs : list RuntimeRecord;      (* the RuntimeRecord objects, by reference *)
  _active : list (Z * ref);       (* self._active *)
  _completed : list ref;          (* self._completed *)
  completed_max : nat             (* the deque's maxlen *)
}.

(** [ProcessRuntimeTracker(completed_max)]; a negative bound makes
    [deque] raise. *)
Definition __init__ (n : Z) : option ProcessRuntimeTracker :=
  if decide (n < 0)%Z then None
  else Some {| objs := []; _active := []; _completed := [];
               completed_max := Z.to_nat n |}.

Definition default_completed_max : Z := 20.

(** Outcome of [psutil.Process(pid)] followed by [proc.create_time()]: the
    creation time, or one of the two exceptions [mark_missing] catches
    (any other exception leaves [mark_missing] and is outside the model). *)
Inductive psutil_result :=
  | CreateTime (t : Q)
  | NoSuchProcess
  | AccessDenied.

(** What a call of [mark_missing] did, in order: the pids it asked psutil
    about and the records it appended to [_completed]. *)
Inductive event :=
  | Probed (p : Z)
  | Appended (r : ref).

Definition _replace_record (p : Z) (nm : string) (ct pred now : Q)
    (self : ProcessRuntimeTracker) : ref * ProcessRuntimeTracker :=
  let record := {| pid := p; name := nm; create_time := ct; predicted := pred;
                   first_seen := now; last_seen := now;
                   actual_duration := None; completed_at := None |} in
  let r := length (objs self) in
  (r, {| objs := objs self ++ [record];
         _active := dict_set (_active self) p r;
         _completed := _completed self;
         completed_max := completed_max self |}).

Definition update_running (p : Z) (nm : string) (ct pred : Q) (now : Q)
    (self : ProcessRuntimeTracker) : option (ref * ProcessRuntimeTracker) :=
  match dict_get (_active self) p with
  | None => Some (_replace_record p nm ct pred now self)
  | Some r =>
      record ← objs self !! r;
      if py_gt (py_abs (create_time record - ct)%Q) 1%Q then
        Some (_replace_record p nm ct pred now self)
      else
        Some (r, {| objs := <[r := touch nm pred now record]> (objs self);
                    _active := _active self;
                    _completed := _completed self;
                    completed_max := completed_max self |})
  end.

(** The [if should_close:] block of [mark_missing]. *)
Definition close (p : Z) (now : Q) (self : ProcessRuntimeTracker)
    : option (list event * ProcessRuntimeTracker) :=
  match dict_get (_active self) p with
  | None => Some ([], self)
  | Some r =>
      record ← objs self !! r;
      Some ([Appended r],
            {| objs := <[r := complete now record]> (objs self);
               _active := dict_pop (_active self) p;
               _completed := deque_append (completed_max self) (_completed self) r;
               completed_max := completed_max self |})
  end.

(** One iteration of the [for pid in ...] loop of [mark_missing]. *)
Definition mark_one (active_set : gset Z) (psutil : Z → psutil_result)
    (now : Q) (p : Z) (self : ProcessRuntimeTracker)
    : option (list event * ProcessRuntimeTracker) :=
  if decide (p ∈ active_set) then Some ([], self)
  else
    match dict_get (_active self) p with
    | None => Some ([], self)
    | Some r =>
        match psutil p with
        | CreateTime t =>
            record ← objs self !! r;
            if py_gt (py_abs (t - create_time record)%Q) 1%Q then
              '(ev, self') ← close p now self; Some (Probed p :: ev, self')
            else Some ([Probed p], self)
        | NoSuchProcess =>
            '(ev, self') ← close p now self; Some (Probed p :: ev, self')
        | AccessDenied => Some ([Probed p], self)
        end
    end.

Fixpoint mark_loop (active_set : gset Z) (psutil : Z → psutil_result)
    (now : Q) (pids : list Z) (self : ProcessRuntimeTracker)
    : option (list event * ProcessRuntimeTracker) :=
  match pids with
  | [] => Some ([], self)
  | p :: pids' =>
      '(ev, self') ← mark_one active_set psutil now p self;
      '(evs, self'') ← mark_loop active_set psutil now pids' self';
      Some (ev ++ evs, self'')
  end.

Definition mark_missing (active_pids : list Z) (psutil : Z → psutil_result)
    (now : Q) (self : ProcessRuntimeTracker)
    : option (list event * ProcessRuntimeTracker) :=
  let active_set : gset Z := list_to_set active_pids in
  mark_loop active_set psutil now (dict_keys (_active self)) self.

(** First record of [self._completed], left to right, whose pid is [p]. *)
Fixpoint find_completed (heap : list RuntimeRecord) (d : list ref) (p : Z)
    : option (option RuntimeRecord) :=
  match d with
  | [] => Some None
  | r :: d' =>
      record ← heap !! r;
      if decide (pid record = p) then Some (Some record)
      else find_completed heap d' p
  end.

(** [current_elapsed(pid)]; [clock] is what [time.time()] returns inside
    [record.elapsed()]. The result is paired with the tracker after the
    call. *)
Definition current_elapsed (p : Z) (clock : Q) (self : ProcessRuntimeTracker)
    : option (option Q * ProcessRuntimeTracker) :=
  match dict_get (_active self) p with
  | Some r =>
      record ← objs self !! r;
      Some (Some (elapsed record None clock), self)
  | None =>
      found ← find_completed (objs self) (_completed self) p;
      match found with
      | Some record => Some (actual_duration record, self)
      | None => Some (None, self)
      end
  end.

Definition status_for (p : Z) (self : ProcessRuntimeTracker)
    : option (string * ProcessRuntimeTracker) :=
  match dict_get (_active self) p with
  | Some r =>
      record ← objs self !! r;
      Some (status record, self)
  | None =>
      found ← find_completed (objs self) (_completed self) p;
      match found with
      | Some record => Some (status record, self)
      | None => Some ("unknown", self)
      end
  end.

(** [recent_completions()]: a fresh list of the completed records. *)
Definition recent_completions (self : ProcessRuntimeTracker)
    : option (list RuntimeRecord * ProcessRuntimeTracker) :=
  recs ← mapM (λ r, objs self !! r) (_completed self);
  Some (recs, self).

(** ** Sequences of calls *)

Inductive call :=
  | UpdateRunning (p : Z) (nm : string) (ct pred : Q) (now : Q)
  | MarkMissing (active_pids : list Z) (psutil : Z → psutil_result) (now : Q).

Definition exec (c : call) (self : ProcessRuntimeTracker)
    : option (list event * ProcessRuntimeTracker) :=
  match c with
  | UpdateRunning p nm ct pred now =>
      '(_, self') ← update_running p nm ct pred now self; Some ([], self')
  | MarkMissing l psutil now => mark_missing l psutil now self
  end.

Fixpoint run (cs : list call) (self : ProcessRuntimeTracker)
    : option (list event * ProcessRuntimeTracker) :=
  match cs with
  | [] => Some ([], self)
  | c :: cs' =>
      '(ev, self') ← exec c self;
      '(evs, self'') ← run cs' self';
      Some (ev ++ evs, self'')
  end.

(** The trackers a program can hold: constructed, then driven by calls. *)
Definition reachable (self : ProcessRuntimeTracker) : Prop :=
  ∃ n cs evs, __init__ n ≫= run cs = Some (evs, self).

(** The pids a sequence of calls registers through [update_running]. *)
Fixpoint observed_pids (cs : list call) : list Z :=
  match cs with
  | [] => []
  | UpdateRunning p _ _ _ _ :: cs' => p :: observed_pids cs'
  | MarkMissing _ _ _ :: cs' => observed_pids cs'
  end.

(** The records appended to [_completed], in order, and the pids asked
    about, in order. *)
Definition appended (evs : list event) : list ref :=
  omap (λ e, match e with Appended r => Some r | Probed _ => None end) evs.

Definition probed (evs : list event) : list Z :=
  omap (λ e, match e with Probed p => Some p | Appended _ => None end) evs.

(** ** Calls of a particular shape *)

(** A call of [mark_missing] whose list lacks [p] and in which psutil is
    denied access to [p]. *)
Definition access_denied_for (p : Z) (c : call) : Prop :=
  match c with
  | MarkMissing l psutil _ => (p ∉ l) ∧ psutil p = AccessDenied
  | UpdateRunning _ _ _ _ _ => False
  end.

(** One [update_running(p, nm, ct, pred)] call that reads [now] off the
    clock, as the tuple [(nm, ct, pred, now)]. *)
Definition observe_call (p : Z) (o : string * Q * Q * Q) : call :=
  let '(nm, ct, pred, now) := o in UpdateRunning p nm ct pred now.

(** An observation whose create_time is within 1.0 of [stored]. *)
Definition same_identity (stored : Q) (o : string * Q * Q * Q) : Prop :=
  py_gt (py_abs (stored - o.1.1.2)%Q) 1%Q = false.

(** ** What one call of [mark_missing] does, as a filter of the dict

    These describe the loop of [mark_missing] in one step; the loop is
    proved to compute them in [mark_missing_spec]. *)

(** Whether a record created at [ct] is closed, given psutil's answer. *)
Definition verdict (res : psutil_result) (ct : Q) : bool :=
  match res with
  | CreateTime t => py_gt (py_abs (t - ct)%Q) 1%Q
  | NoSuchProcess => true
  | AccessDenied => false
  end.

(** The entries of [_active] that a call closes, read off a store [h]. *)
Definition doomed (S : gset Z) (psutil : Z → psutil_result)
    (h : list RuntimeRecord) (kv : Z * ref) : bool :=
  bool_decide (kv.1 ∉ S) &&
  match h !! kv.2 with
  | Some record => verdict (psutil kv.1) (create_time record)
  | None => false
  end.

(** The events of one iteration. *)
Definition events_of (S : gset Z) (psutil : Z → psutil_result)
    (h : list RuntimeRecord) (kv : Z * ref) : list event :=
  if decide (kv.1 ∈ S) then []
  else Probed kv.1 :: (if doomed S psutil h kv then [Appended kv.2] else []).

(** The references a call closes, in dict order. *)
Definition closing (l : list Z) (psutil : Z → psutil_result)
    (self : ProcessRuntimeTracker) : list ref :=
  (filter (λ kv, doomed (list_to_set l) psutil (objs self) kv) (_active self)).*2.

(** The tracker after the [if should_close:] block ran on entry [(p, r)]. *)
Definition closed_state (p : Z) (r : ref) (record : RuntimeRecord) (now : Q)
    (self : ProcessRuntimeTracker) : ProcessRuntimeTracker :=
  {| objs := <[r := complete now record]> (objs self);
     _active := dict_pop (_active self) p;
     _completed := deque_append (completed_max self) (_completed self) r;
     completed_max := completed_max self |}.

(** ** The invariant of a tracker *)

Record wf (self : ProcessRuntimeTracker) : Prop := {
  (* a dict has each key once *)
  wf_keys : NoDup (_active self).*1;
  (* the dict and the deque never hold the same object twice *)
  wf_refs : NoDup ((_active self).*2 ++ _completed self);
  (* an active record is filed under its own pid and is not completed *)
  wf_active : ∀ p r, (p, r) ∈ _active self →
    ∃ record, objs self !! r = Some record ∧ pid record = p ∧
              actual_duration record = None ∧ completed_at record = None;
  (* a record in the history is completed *)
  wf_completed : ∀ r, r ∈ _completed self →
    ∃ record, objs self !! r = Some record ∧
              is_Some (actual_duration record) ∧ is_Some (completed_at record);
  wf_bound : length (_completed self) ≤ completed_max self;
  (* the two completion fields are set together, on every record *)
  wf_both : ∀ r record, objs self !! r = Some record →
    (actual_duration record = None ↔ completed_at record = None)
}.

(** ** Scenarios *)

(** [update_running(99, "build", 1000.0, 12.5)] at time 1003, and the
    tracker it leaves when called on a new tracker. *)
Definition build99 : call := UpdateRunning 99 "build" 1000%Q (25 # 2)%Q 1003%Q.

Definition record99 : RuntimeRecord :=
  {| pid := 99; name := "build"; create_time := 1000%Q; predicted := (25 # 2)%Q;
     first_seen := 1003%Q; last_seen := 1003%Q;
     actual_duration := None; completed_at := None |}.

Definition tracker99 : ProcessRuntimeTracker :=
  {| objs := [record99]; _active := [(99%Z, 0)]; _completed := [];
     completed_max := 20 |}.

(** [tracker99] after [mark_missing([])] at time 1010 with the process
    gone. *)
Definition closed99 : RuntimeRecord :=
  {| pid := 99; name := "build"; create_time := 1000%Q; predicted := (25 # 2)%Q;
     first_seen := 1003%Q; last_seen := 1003%Q;
     actual_duration := Some (1010 - 1000)%Q; completed_at := Some 1010%Q |}.

Definition done99 : ProcessRuntimeTracker :=
  {| objs := [closed99]; _active := []; _completed := [0];
     completed_max := 20 |}.

(** Pid 99 run twice: tracked and found gone at 1010, then reused by a
    process created at 2000, tracked again and found gone at 2030. *)
Definition again99 : call := UpdateRunning 99 "build" 2000%Q (25 # 2)%Q 2001%Q.

Definition reused99 : RuntimeRecord :=
  {| pid := 99; name := "build"; create_time := 2000%Q; predicted := (25 # 2)%Q;
     first_seen := 2001%Q; last_seen := 2001%Q;
     actual_duration := None; completed_at := None |}.

(** after the first three calls: one completion in the history, pid 99
    active again *)
Definition rerun99 : ProcessRuntimeTracker :=
  {| objs := [closed99; reused99]; _active := [(99%Z, 1)]; _completed := [0];
     completed_max := 20 |}.

(** after all four calls: two completions of pid 99 in the history *)
Definition twice99 : ProcessRuntimeTracker :=
  {| objs := [closed99; complete 2030%Q reused99]; _active := [];
     _completed := [0; 1]; completed_max := 20 |}.

(** Three processes observed by a tracker with [completed_max = 2], then
    all found gone by one [mark_missing([])]. *)
Definition three_then_gone : list call :=
  [UpdateRunning 1 "a" 10%Q 1%Q 11%Q;
   UpdateRunning 2 "b" 20%Q 1%Q 21%Q;
   UpdateRunning 3 "c" 30%Q 1%Q 31%Q;
   MarkMissing [] (λ _, NoSuchProcess) 40%Q].

(** Three processes observed by a tracker with [completed_max = 1]; the
    first is then found gone, which fills the history. *)
Definition three_then_first_gone : list call :=
  [UpdateRunning 1 "a" 10%Q 1%Q 11%Q;
   UpdateRunning 2 "b" 20%Q 1%Q 21%Q;
   UpdateRunning 3 "c" 30%Q 1%Q 31%Q;
   MarkMissing [2%Z; 3%Z] (λ _, NoSuchProcess) 40%Q].

Definition job1 : RuntimeRecord :=
  {| pid := 1; name := "a"; create_time := 10%Q; predicted := 1%Q;
     first_seen := 11%Q; last_seen := 11%Q;
     actual_duration := Some (40 - 10)%Q; completed_at := Some 40%Q |}.

Definition job2 : RuntimeRecord :=
  {| pid := 2; name := "b"; create_time := 20%Q; predicted := 1%Q;
     first_seen := 21%Q; last_seen := 21%Q;
     actual_duration := None; completed_at := None |}.

Definition job3 : RuntimeRecord :=
  {| pid := 3; name := "c"; create_time := 30%Q; predicted := 1%Q;
     first_seen := 31%Q; last_seen := 31%Q;
     actual_duration := None; completed_at := None |}.

(** the tracker after these calls: pids 2 and 3 active, a full history *)
Definition first_gone : ProcessRuntimeTracker :=
  {| objs := [job1; job2; job3]; _active := [(2%Z, 1); (3%Z, 2)];
     _completed := [0]; completed_max := 1 |}.

(** Three processes observed by a default tracker, none closed yet. *)
Definition three_observed : list call :=
  [UpdateRunning 1 "a" 10%Q 1%Q 11%Q;
   UpdateRunning 2 "b" 20%Q 1%Q 21%Q;
   UpdateRunning 3 "c" 30%Q 1%Q 31%Q].

Definition running1 : RuntimeRecord :=
  {| pid := 1; name := "a"; create_time := 10%Q; predicted := 1%Q;
     first_seen := 11%Q; last_seen := 11%Q;
     actual_duration := None; completed_at := None |}.

Definition watching : ProcessRuntimeTracker :=
  {| objs := [running1; job2; job3];
     _active := [(1%Z, 0); (2%Z, 1); (3%Z, 2)];
     _completed := []; completed_max := 20 |}.

(** ** Further definitions: properties of records and the callers in main.py *)

(** Every duration on record is the one [mark_missing] computed. *)
Definition duration_ok (record : RuntimeRecord) : Prop :=
  ∀ d, actual_duration record = Some d →
    ∃ t, completed_at record = Some t ∧
         d = py_max (t - create_time record)%Q 0%Q.

(** [_runtime_metadata(pid, name, create_time, predicted)] of main.py on the
    module's tracker: [now] is the clock reading inside [update_running],
    [clock] the one inside [current_elapsed]. *)
Definition _runtime_metadata (p : Z) (nm : string) (ct : option Q) (pred : Q)
    (now clock : Q) (runtime_tracker : ProcessRuntimeTracker)
    : option ((option Q * string) * ProcessRuntimeTracker) :=
  match ct with
  | None => Some ((None, "unknown"), runtime_tracker)
  | Some ct =>
      '(_, t1) ← update_running p nm ct pred now runtime_tracker;
      '(actual, t2) ← current_elapsed p clock t1;
      '(st, t3) ← status_for p t2;
      Some ((actual, st), t3)
  end.

(** The dict [_serialize_completion(record)] of main.py builds. *)
Record completion := mkCompletion {
  c_pid : Z;
  c_name : string;
  predicted_turnaround_time : Q;
  actual_turnaround_time : option Q;
  turnaround_status : string;
  c_completed_at : option Q;
  duration_error : option Q
}.

Definition _serialize_completion (record : RuntimeRecord) : completion :=
  {| c_pid := pid record;
     c_name := name record;
     predicted_turnaround_time := predicted record;
     actual_turnaround_time := actual_duration record;
     turnaround_status := status record;
     c_completed_at := completed_at record;
     duration_error :=
       match actual_duration record with
       | Some a => Some (a - predicted record)%Q
       | None => None
       end |}.

(** The [recent_completions] entry of the payload [ws_live] sends. *)
Definition recent_feed (self : ProcessRuntimeTracker)
    : option (list completion * ProcessRuntimeTracker) :=
  match recent_completions self with
  | Some (recs, self') => Some (_serialize_completion <$> recs, self')
  | None => None
  end.

(** A list of [update_running(p, nm, ct, pred)] calls with their clock
    readings. *)
Definition observe_calls (obs : list (Z * (string * Q * Q * Q))) : list call :=
  (λ o, observe_call o.1 o.2) <$> obs.

(** ** Python values, tuple comparison, slices and [list.sort] *)

(** The values the process dicts hold. *)
Inductive value :=
  | VNone
  | VInt (z : Z)
  | VFloat (q : Q)
  | VStr (s : string).

(** [v is None] *)
Definition is_none (v : value) : bool :=
  match v with VNone => true | _ => false end.

(** [v1 == v2] *)
Definition val_eq (v1 v2 : value) : bool :=
  match v1, v2 with
  | VNone, VNone => true
  | VInt a, VInt b => (a =? b)%Z
  | VFloat a, VFloat b => Qeq_bool a b
  | VInt a, VFloat b => Qeq_bool (inject_Z a) b
  | VFloat a, VInt b => Qeq_bool a (inject_Z b)
  | VStr a, VStr b => String.eqb a b
  | _, _ => false
  end.

(** [v1 < v2]; [None] when Python raises TypeError. Strings are compared
    byte by byte, which on UTF-8 is the order of the code points. *)
Definition val_lt (v1 v2 : value) : option bool :=
  match v1, v2 with
  | VInt a, VInt b => Some (a <? b)%Z
  | VFloat a, VFloat b => Some (py_gt b a)
  | VInt a, VFloat b => Some (py_gt b (inject_Z a))
  | VFloat a, VInt b => Some (py_gt (inject_Z b) a)
  | VStr a, VStr b => Some (String.ltb a b)
  | _, _ => None
  end.

(** [(b1, v1) < (b2, v2)] on tuples: the first pair of items that are not
    [==] decides; equal tuples are not less. *)
Definition tuple_lt (k1 k2 : bool * value) : option bool :=
  if negb (Bool.eqb k1.1 k2.1) then Some (negb k1.1 && k2.1)
  else if negb (val_eq k1.2 k2.2) then val_lt k1.2 k2.2
  else Some false.

(** [l.sort(key=..., reverse=...)], given the keys already computed.
    CPython's sort is stable, with [<] as its only comparison; for
    [reverse=True] it reverses the list, sorts, and reverses the result.
    The stable sort is written as an insertion sort: an element goes in
    front of the first element that is not less than it. The result is
    [None] when a comparison raises. *)
Fixpoint sort_insert {A} (x : (bool * value) * A) (l : list ((bool * value) * A))
    : option (list ((bool * value) * A)) :=
  match l with
  | [] => Some [x]
  | y :: l' =>
      b ← tuple_lt y.1 x.1;
      if b : bool then l'' ← sort_insert x l'; Some (y :: l'')
      else Some (x :: y :: l')
  end.

Fixpoint stable_sort {A} (l : list ((bool * value) * A))
    : option (list ((bool * value) * A)) :=
  match l with
  | [] => Some []
  | x :: l' => s ← stable_sort l'; sort_insert x s
  end.

Definition list_sort {A} (key : A → bool * value) (rev : bool) (l : list A)
    : option (list A) :=
  let keyed := (λ x, (key x, x)) <$> l in
  s ← stable_sort (if rev then reverse keyed else keyed);
  Some (if rev then reverse s else s).*2.

(** [l[start:stop]] for integer bounds: a negative bound counts from the
    end, and both are clipped to the list. *)
Definition slice_index (len i : Z) : Z :=
  if (i <? 0)%Z then Z.max 0 (i + len) else Z.min i len.

Definition py_slice {A} (l : list A) (start stop : Z) : list A :=
  let len := Z.of_nat (length l) in
  let s := slice_index len start in
  let e := slice_index len stop in
  take (Z.to_nat (e - s)) (drop (Z.to_nat s) l).

(** ** process_manager.py *)

Module process_manager.

(** A dict built by [list_processes]; psutil leaves None in [proc.info]
    for an attribute it could not read. *)
Record process := mkProcess {
  pid : Z;
  name : option string;
  cpu_percent : option Q;
  memory_percent : option Q;
  cpu_time : Q;
  create_time : option Q
}.

(** What [psutil.process_iter(attrs)] yields: [proc.info], and what
    [proc.cpu_times()] does. *)
Record info := mkInfo {
  info_pid : Z;
  info_name : option string;
  info_cpu_percent : option Q;
  info_memory_percent : option Q;
  info_create_time : option Q
}.

Inductive cpu_times_result :=
  | CpuTimes (user system : Q)
  | CpuTimesNoSuchProcess
  | CpuTimesAccessDenied.

Definition list_processes (process_iter : list (info * cpu_times_result))
    : list process :=
  omap (λ '(i, c),
          match c with
          | CpuTimes user system =>
              Some {| pid := info_pid i; name := info_name i;
                      cpu_percent := info_cpu_percent i;
                      memory_percent := info_memory_percent i;
                      cpu_time := (user + system)%Q;
                      create_time := info_create_time i |}
          | CpuTimesNoSuchProcess | CpuTimesAccessDenied => None
          end) process_iter.

(** [p.get(key)] *)
Definition get (p : process) (key : string) : value :=
  if decide (key = "pid") then VInt (pid p)
  else if decide (key = "name") then from_option VStr VNone (name p)
  else if decide (key = "cpu_percent") then from_option VFloat VNone (cpu_percent p)
  else if decide (key = "memory_percent") then
    from_option VFloat VNone (memory_percent p)
  else if decide (key = "cpu_time") then VFloat (cpu_time p)
  else if decide (key = "create_time") then from_option VFloat VNone (create_time p)
  else VNone.

(** [lambda p: (p.get(sort_by) is None, p.get(sort_by))] *)
Definition sort_key (sort_by : string) (p : process) : bool * value :=
  (is_none (get p sort_by), get p sort_by).

(** [procs.sort(key=..., reverse=(order == "desc"))] inside [try]. The
    result is [None] when the sort raises: the source then goes on with
    the list as the interrupted sort left it, which is not described here
    (it never happens, see [sort_processes_total]). *)
Definition sort_processes (sort_by order : string) (procs : list process)
    : option (list process) :=
  list_sort (sort_key sort_by) (bool_decide (order = "desc")) procs.

Definition pick_top_processes (top_n : Z) (sort_by order : string)
    (process_iter : list (info * cpu_times_result)) : option (list process) :=
  let procs := list_processes process_iter in
  procs ← sort_processes sort_by order procs;
  Some (py_slice procs 0 (Z.max 0 top_n)).

(** Outcome of [psutil.Process(pid)], [cpu_times()], [name()] and
    [create_time()] in [_get_process_snapshot]. *)
Inductive snapshot_result :=
  | Snapshot (p : Z) (nm : string) (user system ct : Q)
  | SnapshotNoSuchProcess
  | SnapshotAccessDenied.

Record snapshot := mkSnapshot {
  snap_pid : Z;
  snap_name : string;
  snap_cpu_time : Q;
  snap_create_time : Q
}.

Definition _get_process_snapshot (res : snapshot_result) : option snapshot :=
  match res with
  | Snapshot p nm user system ct =>
      Some {| snap_pid := p; snap_name := nm;
              snap_cpu_time := (user + system)%Q; snap_create_time := ct |}
  | SnapshotNoSuchProcess | SnapshotAccessDenied => None
  end.

Definition get_process_snapshot (res : snapshot_result) : option snapshot :=
  _get_process_snapshot res.

(** The feature dict of the model. *)
Record features := mkFeatures {
  mean_burst : Q;
  std_burst : Q;
  mean_arrival : Q;
  std_arrival : Q;
  num_processes : Q;
  system_load : Q;
  time_quantum : Q
}.

(** [compute_rr_features_for_pid(pid, time_quantum)]: [now] is
    [time.time()], [load] is [psutil.cpu_percent(interval=0.05)]. *)
Definition compute_rr_features_for_pid (res : snapshot_result)
    (quantum now load : Q) : option features :=
  match _get_process_snapshot res with
  | None => None
  | Some snap =>
      Some {| mean_burst := snap_cpu_time snap;
              std_burst := 0;
              mean_arrival := py_max (now - snap_create_time snap)%Q 0%Q;
              std_arrival := 0;
              num_processes := 1;
              system_load := (load / 100)%Q;
              time_quantum := quantum |}
  end.

End process_manager.

(** ** main.py: [get_processes] *)

Record processes_page := mkPage {
  page : Z;
  page_size : Z;
  total : nat;
  results : list process_manager.process
}.

(** [GET /processes]; the query parameters are validated before the call
    ([page > 0], [0 < page_size <= 500]). [None] as for
    [sort_processes]. *)
Definition get_processes (pg pg_size : Z) (sort_by order : string)
    (process_iter : list (process_manager.info * process_manager.cpu_times_result))
    : option processes_page :=
  let procs := process_manager.list_processes process_iter in
  procs ← process_manager.sort_processes sort_by order procs;
  let start := ((pg - 1) * pg_size)%Z in
  let stop := (start + pg_size)%Z in
  Some {| page := pg; page_size := pg_size; total := length procs;
          results := py_slice procs start stop |}.

(** ** The order of the sort keys *)

(** [k1] is not after [k2]: [k2 < k1] is false. *)
Definition key_le (k1 k2 : bool * value) : Prop := tuple_lt k2 k1 = Some false.

(** Two values that one field of two process dicts can hold. *)
Definition compat (v1 v2 : value) : Prop :=
  match v1, v2 with
  | VNone, _ | _, VNone => True
  | VInt _, VInt _ | VFloat _, VFloat _ | VStr _, VStr _ => True
  | _, _ => False
  end.

(** [<] on the keys of such values, without the TypeError case. *)
Definition key_ltb (v1 v2 : value) : bool :=
  match v1, v2 with
  | VNone, _ => false
  | _, VNone => true
  | VInt a, VInt b => (a <? b)%Z
  | VFloat a, VFloat b => py_gt b a
  | VStr a, VStr b => String.ltb a b
  | _, _ => false
  end.

(** An element with its key, as [list.sort] holds it; [val] gives the
    value the key is built from. *)
Definition keyed {A} (val : A → value) (x : A) : (bool * value) * A :=
  ((is_none (val x), val x), x).

(** [x] may come before [y] in ascending order. *)
Definition ascending {A} (val : A → value) (x y : A) : Prop :=
  key_ltb (val y) (val x) = false.

(** The keys of [z] and [x] tie. *)
Definition tie {A} (val : A → value) (z x : A) : Prop :=
  key_ltb (val z) (val x) = false ∧ key_ltb (val x) (val z) = false.

#[global] Instance tie_dec {A} (val : A → value) (z x : A) :
  Decision (tie val z x) := and_dec _ _.

(** The order of [get_processes] and [pick_top_processes] on two
    processes, the first of which comes earlier in the sorted list. *)
Definition in_order (sort_by order : string)
    (p q : process_manager.process) : Prop :=
  if bool_decide (order = "desc")
  then key_le (process_manager.sort_key sort_by q) (process_manager.sort_key sort_by p)
  else key_le (process_manager.sort_key sort_by p) (process_manager.sort_key sort_by q).

(** Three enumerated processes: one with a cpu_percent, two without. *)
Definition enum3 : list (process_manager.info * process_manager.cpu_times_result) :=
  [(process_manager.mkInfo 1 (Some "a") None (Some 1%Q) (Some 10%Q),
    process_manager.CpuTimes 1%Q 1%Q);
   (process_manager.mkInfo 2 (Some "b") (Some 3%Q) (Some 2%Q) (Some 20%Q),
    process_manager.CpuTimes 2%Q 1%Q);
   (process_manager.mkInfo 3 None None None None,
    process_manager.CpuTimes 0%Q 0%Q);
   (process_manager.mkInfo 4 (Some "d") (Some 9%Q) None None,
    process_manager.CpuTimesAccessDenied)].

Definition proc1 : process_manager.process :=
  process_manager.mkProcess 1 (Some "a") None (Some 1%Q) (1 + 1)%Q (Some 10%Q).
Definition proc2 : process_manager.process :=
  process_manager.mkProcess 2 (Some "b") (Some 3%Q) (Some 2%Q) (2 + 1)%Q (Some 20%Q).
Definition proc3 : process_manager.process :=
  process_manager.mkProcess 3 None None None (0 + 0)%Q None.


(** Two processes with the same sort key: neither key is less. *)
Definition same_key (sort_by : string) (p q : process_manager.process) : Prop :=
  tuple_lt (process_manager.sort_key sort_by p) (process_manager.sort_key sort_by q)
    = Some false ∧
  tuple_lt (process_manager.sort_key sort_by q) (process_manager.sort_key sort_by p)
    = Some false.

(** ** The dict operations *)

Section dict_facts.
Context {V : Type}.
Implicit Types (d : list (Z * V)) (k : Z) (v : V).

Lemma dict_get_Some_elem d k v : dict_get d k = Some v → (k, v) ∈ d.
Proof.
  induction d as [|[k' v'] d IH]; csimpl; [done|].
  case_decide; intros ?; simplify_eq; [left | right; auto].
Qed.

Lemma dict_get_None d k : dict_get d k = None ↔ k ∉ d.*1.
Proof.
  induction d as [|[k' v'] d IH]; csimpl.
  - split; [intros _; apply not_elem_of_nil | done].
  - rewrite not_elem_of_cons. case_decide; [|tauto].
    split; [done | intros [? _]; done].
Qed.

Lemma dict_get_elem d k v : NoDup d.*1 → (k, v) ∈ d → dict_get d k = Some v.
Proof.
  induction d as [|[k' v'] d IH]; csimpl; intros Hnd Hin.
  - by apply elem_of_nil in Hin.
  - apply NoDup_cons in Hnd as [Hk' Hnd].
    apply elem_of_cons in Hin as [?|Hin]; simplify_eq.
    + by rewrite decide_True.
    + rewrite decide_False; [auto|]. intros ->. apply Hk'.
      apply list_elem_of_fmap. by exists (k', v).
Qed.

Lemma dict_get_app_r d1 d2 k :
  k ∉ d1.*1 → dict_get (d1 ++ d2) k = dict_get d2 k.
Proof.
  induction d1 as [|[k' v'] d1 IH]; csimpl; [done|].
  rewrite not_elem_of_cons. intros [? ?]. by rewrite decide_False; auto.
Qed.

Lemma dict_get_set d k v k' :
  dict_get (dict_set d k v) k' = if decide (k = k') then Some v else dict_get d k'.
Proof.
  induction d as [|[k0 v0] d IH]; csimpl.
  - repeat case_decide; congruence.
  - destruct (decide (k = k0)) as [->|Hne]; csimpl.
    + repeat case_decide; congruence.
    + rewrite IH. repeat case_decide; congruence.
Qed.

Lemma dict_set_keys d k v :
  (dict_set d k v).*1 = if decide (k ∈ d.*1) then d.*1 else d.*1 ++ [k].
Proof.
  induction d as [|[k0 v0] d IH]; csimpl.
  - done.
  - destruct (decide (k = k0)) as [->|Hne]; csimpl.
    + rewrite decide_True; [done | left].
    + rewrite IH. destruct (decide (k ∈ d.*1)) as [Hin|Hin].
      * rewrite decide_True; [done | by right].
      * rewrite decide_False; [done|]. rewrite not_elem_of_cons. done.
Qed.

Lemma dict_set_NoDup d k v : NoDup d.*1 → NoDup (dict_set d k v).*1.
Proof.
  intros Hnd. rewrite dict_set_keys. case_decide; [done|].
  apply NoDup_app. split_and!; [done | | apply NoDup_singleton].
  intros x Hx ->%list_elem_of_singleton. done.
Qed.

Lemma dict_set_elem d k v k' v' :
  NoDup d.*1 →
  (k', v') ∈ dict_set d k v → (k' = k ∧ v' = v) ∨ (k' ≠ k ∧ (k', v') ∈ d).
Proof.
  intros Hnd Hin.
  apply dict_get_elem in Hin; [|by apply dict_set_NoDup].
  rewrite dict_get_set in Hin.
  case_decide; simplify_eq; [by left|].
  right. split; [done|]. by apply dict_get_Some_elem.
Qed.

Lemma dict_pop_app_r d1 d2 k :
  k ∉ d1.*1 → dict_pop (d1 ++ d2) k = d1 ++ dict_pop d2 k.
Proof.
  induction d1 as [|[k' v'] d1 IH]; csimpl; [done|].
  rewrite not_elem_of_cons. intros [? ?].
  rewrite decide_False; [|done]. by rewrite IH.
Qed.
End dict_facts.

(** ** The bounded deque *)

Section deque_facts.
Context {A : Type}.
Implicit Types (d l : list A) (n : nat).

Lemma deque_append_drop n d x :
  length d ≤ n →
  deque_append n d x = drop (length (d ++ [x]) - n) (d ++ [x]).
Proof.
  intros Hle. unfold deque_append. rewrite length_app. simpl.
  destruct (Nat.ltb_spec n (length d + 1)) as [Hlt|Hge].
  - by replace (length d + 1 - n)%nat with 1%nat by lia.
  - by replace (length d + 1 - n)%nat with 0%nat by lia.
Qed.

Lemma deque_append_length n d x :
  length d ≤ n → length (deque_append n d x) ≤ n.
Proof.
  intros Hle. rewrite deque_append_drop by done.
  rewrite length_drop, length_app. simpl. lia.
Qed.

(** Appending a run of elements keeps the last [n] of everything. *)
Lemma deque_extend_drop n d l :
  length d ≤ n →
  foldl (deque_append n) d l = drop (length (d ++ l) - n) (d ++ l).
Proof.
  revert d. induction l as [|x l IH]; intros d Hle; simpl.
  - rewrite app_nil_r. by replace (length d - n)%nat with 0%nat by lia.
  - rewrite IH by by apply deque_append_length.
    rewrite deque_append_drop by done.
    rewrite (cons_middle x d l), (assoc_L (++)).
    set (dx := d ++ [x]).
    assert (length dx - n ≤ length dx)%nat as Hk by lia.
    rewrite <- (drop_app_le dx l _ Hk), drop_drop.
    rewrite length_drop, !length_app. f_equal. lia.
Qed.

Lemma deque_extend_length n d l :
  length d ≤ n → length (foldl (deque_append n) d l) ≤ n.
Proof.
  intros Hle. rewrite deque_extend_drop by done. rewrite length_drop. lia.
Qed.

Lemma deque_extend_suffix n d l :
  length d ≤ n → foldl (deque_append n) d l `suffix_of` d ++ l.
Proof. intros Hle. rewrite deque_extend_drop by done. apply suffix_drop. Qed.
End deque_facts.

(** ** What one call of [mark_missing] does *)

Lemma complete_idemp now record :
  complete now (complete now record) = complete now record.
Proof. done. Qed.

Lemma mark_one_cases S psutil now p r record self :
  dict_get (_active self) p = Some r →
  objs self !! r = Some record →
  mark_one S psutil now p self =
    if decide (p ∈ S) then Some ([], self)
    else if verdict (psutil p) (create_time record)
         then Some ([Probed p; Appended r], closed_state p r record now self)
         else Some ([Probed p], self).
Proof.
  intros Hget Hrec. unfold mark_one, close, verdict.
  case_decide; [done|]. rewrite Hget.
  destruct (psutil p); simpl; rewrite ?Hrec; simpl; [|done|done].
  by destruct (py_gt _ _).
Qed.

Lemma mark_loop_spec S psutil now h0 suf : ∀ pre self,
  _active self = pre ++ suf →
  NoDup (pre ++ suf).*1 →
  (∀ r, create_time <$> objs self !! r = create_time <$> h0 !! r) →
  (∀ kv, kv ∈ suf → is_Some (h0 !! kv.2)) →
  ∃ self',
    mark_loop S psutil now suf.*1 self
      = Some (suf ≫= events_of S psutil h0, self') ∧
    _active self' = pre ++ filter (λ kv, ¬ doomed S psutil h0 kv) suf ∧
    _completed self' =
      foldl (deque_append (completed_max self)) (_completed self)
            (filter (λ kv, doomed S psutil h0 kv) suf).*2 ∧
    completed_max self' = completed_max self ∧
    (∀ r, objs self' !! r =
          if decide (r ∈ (filter (λ kv, doomed S psutil h0 kv) suf).*2)
          then complete now <$> objs self !! r else objs self !! r).
Proof.
  induction suf as [|[k r] suf IH]; intros pre self Hact Hnd Hct Hh0.
  { exists self. rewrite app_nil_r in Hact. simpl.
    split_and!; try done. by rewrite app_nil_r. }
  assert (k ∉ pre.*1) as Hk.
  { rewrite fmap_app in Hnd. apply NoDup_app in Hnd as (_ & Hd & _).
    intros Hin. apply (Hd _ Hin). csimpl. left. }
  assert (dict_get (_active self) k = Some r) as Hget.
  { rewrite Hact, dict_get_app_r by done. simpl. by rewrite decide_True. }
  assert (is_Some (h0 !! r)) as [rec0 Hrec0] by (apply (Hh0 (k, r)); left).
  assert (∃ record, objs self !! r = Some record
                    ∧ create_time record = create_time rec0)
    as (record & Hrec & Hcr).
  { specialize (Hct r). rewrite Hrec0 in Hct.
    destruct (objs self !! r) as [record|]; simplify_eq/=. eauto. }
  assert (NoDup (pre ++ suf).*1) as Hnd'.
  { rewrite fmap_app in *. csimpl in Hnd.
    rewrite <- Permutation_middle in Hnd. by apply NoDup_cons in Hnd as [_ ?]. }
  assert (∀ kv, kv ∈ suf → is_Some (h0 !! kv.2)) as Hh0'.
  { intros kv ?. apply Hh0. by right. }
  csimpl. rewrite (mark_one_cases _ _ _ _ _ _ _ Hget Hrec), Hcr.
  assert (events_of S psutil h0 (k, r) =
            if decide (k ∈ S) then []
            else Probed k :: (if doomed S psutil h0 (k, r)
                              then [Appended r] else [])) as -> by done.
  assert (doomed S psutil h0 (k, r) =
            bool_decide (k ∉ S) && verdict (psutil k) (create_time rec0)) as Hd.
  { unfold doomed. simpl. by rewrite Hrec0. }
  destruct (decide (k ∈ S)) as [HS|HS].
  - (* observed this cycle: skipped *)
    rewrite bool_decide_false in Hd by (by intros ?). simpl in Hd.
    destruct (IH (pre ++ [(k, r)]) self) as (self' & Hrun & Ha & Hc & Hm & Ho);
      [by rewrite <- (assoc_L (++)) | by rewrite <- (assoc_L (++)) | done | done |].
    exists self'. simpl. rewrite Hrun. simpl.
    rewrite filter_cons_True by (cbv beta; rewrite Hd; simpl; tauto).
    rewrite filter_cons_False by (cbv beta; rewrite Hd; simpl; tauto).
    rewrite <- (assoc_L (++)) in Ha. done.
  - rewrite bool_decide_true in Hd by done. simpl in Hd. rewrite Hd.
    destruct (verdict (psutil k) (create_time rec0)) eqn:Hv.
    + (* closed *)
      destruct (IH pre (closed_state k r record now self))
        as (self' & Hrun & Ha & Hc & Hm & Ho); [| done | | done |].
      { simpl. rewrite Hact, dict_pop_app_r by done. simpl.
        by rewrite decide_True. }
      { intros r'. simpl. destruct (decide (r = r')) as [<-|Hne].
        - rewrite list_lookup_insert_eq by by eapply lookup_lt_Some.
          rewrite <- Hct, Hrec. done.
        - by rewrite list_lookup_insert_ne. }
      exists self'. simpl. rewrite Hrun. simpl.
      rewrite filter_cons_False by (cbv beta; rewrite Hd; simpl; tauto).
      rewrite filter_cons_True by (cbv beta; rewrite Hd; simpl; tauto).
      split_and!; [done | done | done | done |].
      intros r'. rewrite Ho. csimpl.
      destruct (decide (r = r')) as [<-|Hne].
      * rewrite list_lookup_insert_eq by by eapply lookup_lt_Some.
        rewrite (decide_True (P := r ∈ r :: _)) by left. rewrite Hrec. simpl.
        by case_decide.
      * rewrite list_lookup_insert_ne by done.
        destruct (decide (r' ∈ _)) as [Hin|Hin].
        -- rewrite decide_True; [done | by right].
        -- rewrite decide_False; [done|]. rewrite not_elem_of_cons. done.
    + (* still the same process, or access denied: kept *)
      destruct (IH (pre ++ [(k, r)]) self) as (self' & Hrun & Ha & Hc & Hm & Ho);
        [by rewrite <- (assoc_L (++)) | by rewrite <- (assoc_L (++)) | done | done |].
      exists self'. simpl. rewrite Hrun. simpl.
      rewrite filter_cons_True by (cbv beta; rewrite Hd; simpl; tauto).
      rewrite filter_cons_False by (cbv beta; rewrite Hd; simpl; tauto).
      rewrite <- (assoc_L (++)) in Ha. done.
Qed.

Lemma dict_get_filter {V} (P : Z * V → Prop) `{!∀ kv, Decision (P kv)}
    (d : list (Z * V)) (k : Z) (v : V) :
  NoDup d.*1 → dict_get d k = Some v →
  dict_get (filter P d) k = if decide (P (k, v)) then Some v else None.
Proof.
  intros Hnd Hget.
  assert (NoDup (filter P d).*1) as Hnd'.
  { eapply sublist_NoDup; [exact Hnd|]. apply fmap_sublist, sublist_filter. }
  case_decide as HP.
  - apply dict_get_elem; [done|]. apply list_elem_of_filter.
    split; [done|]. by apply dict_get_Some_elem.
  - apply dict_get_None. intros ([k' v'] & -> & Hin)%list_elem_of_fmap.
    apply list_elem_of_filter in Hin as [HP' Hin]. simpl in *.
    apply (dict_get_elem _ _ _ Hnd) in Hin. by simplify_eq.
Qed.

Lemma dict_get_filter_None {V} (P : Z * V → Prop) `{!∀ kv, Decision (P kv)}
    (d : list (Z * V)) (k : Z) :
  dict_get d k = None → dict_get (filter P d) k = None.
Proof.
  rewrite !dict_get_None. intros Hk ([k' v'] & -> & Hin)%list_elem_of_fmap.
  apply list_elem_of_filter in Hin as [_ Hin].
  apply Hk, list_elem_of_fmap. by exists (k', v').
Qed.

(** ** The invariant of a tracker *)

Lemma wf_init n self : __init__ n = Some self → wf self.
Proof.
  unfold __init__. case_decide; intros ?; simplify_eq.
  split; simpl.
  - constructor.
  - constructor.
  - intros ?? Hin. by apply elem_of_nil in Hin.
  - intros ? Hin. by apply elem_of_nil in Hin.
  - lia.
  - intros r record Hr. by rewrite lookup_nil in Hr.
Qed.

Lemma wf_active_get self p r :
  wf self → dict_get (_active self) p = Some r →
  ∃ record, objs self !! r = Some record ∧ pid record = p ∧
            actual_duration record = None ∧ completed_at record = None.
Proof. intros Hwf Hget. by apply (wf_active _ Hwf), dict_get_Some_elem. Qed.

Lemma dict_set_refs {V} (d : list (Z * V)) k v x :
  x ∈ (dict_set d k v).*2 → x = v ∨ x ∈ d.*2.
Proof.
  induction d as [|[k0 v0] d IH]; csimpl.
  - intros ?%list_elem_of_singleton. by left.
  - case_decide; csimpl; rewrite !elem_of_cons; intros [?|?]; auto.
    destruct IH; auto.
Qed.

Lemma dict_set_refs_NoDup (d : list (Z * ref)) k (n : ref) (c : list ref) :
  n ∉ d.*2 → n ∉ c → NoDup (d.*2 ++ c) → NoDup ((dict_set d k n).*2 ++ c).
Proof.
  induction d as [|[k0 v0] d IH]; csimpl; intros Hd Hc Hnd.
  - by apply NoDup_cons.
  - apply NoDup_cons in Hnd as [Hv0 Hnd].
    apply not_elem_of_cons in Hd as [Hne Hd].
    case_decide; csimpl; apply NoDup_cons.
    + split; [|done]. rewrite elem_of_app. tauto.
    + split; [|by apply IH]. rewrite elem_of_app in *.
      intros [Hin|Hin]; [|tauto].
      apply dict_set_refs in Hin as [?|?]; [congruence | tauto].
Qed.

(** A fresh record does not disturb the invariant. *)
Lemma wf_replace_record p nm ct pred now self :
  wf self → wf (_replace_record p nm ct pred now self).2.
Proof.
  intros Hwf.
  assert (∀ r, r ∈ (_active self).*2 ++ _completed self → r < length (objs self))
    as Hlt.
  { intros r [Hr|Hr]%elem_of_app.
    - apply list_elem_of_fmap in Hr as ([p' r'] & -> & Hin).
      destruct (wf_active _ Hwf _ _ Hin) as (? & ? & _).
      by eapply lookup_lt_Some.
    - destruct (wf_completed _ Hwf _ Hr) as (? & ? & _).
      by eapply lookup_lt_Some. }
  assert (length (objs self) ∉ (_active self).*2 ++ _completed self) as Hfresh.
  { intros Hin%Hlt. lia. }
  rewrite elem_of_app in Hfresh.
  split; simpl.
  - apply dict_set_NoDup, Hwf.
  - apply dict_set_refs_NoDup; [tauto | tauto | apply Hwf].
  - intros p' r' Hin.
    apply dict_set_elem in Hin as [[-> ->]|[Hne Hin]]; [| |apply Hwf].
    + eexists. split.
      * rewrite lookup_app_r by done. rewrite Nat.sub_diag. reflexivity.
      * done.
    + destruct (wf_active _ Hwf _ _ Hin) as (record & Hrec & ?).
      exists record. split; [|done].
      rewrite lookup_app_l; [done | by eapply lookup_lt_Some].
  - intros r Hr. destruct (wf_completed _ Hwf _ Hr) as (record & Hrec & ?).
    exists record. split; [|done].
    rewrite lookup_app_l; [done | by eapply lookup_lt_Some].
  - apply Hwf.
  - intros r record [Hr|[_ Hr]]%lookup_app_Some.
    + by eapply wf_both.
    + by destruct (r - length (objs self)); simplify_eq/=.
Qed.

Lemma wf_update_running p nm ct pred now self :
  wf self →
  ∃ r self', update_running p nm ct pred now self = Some (r, self') ∧ wf self'.
Proof.
  intros Hwf. unfold update_running.
  destruct (dict_get (_active self) p) as [r|] eqn:Hget.
  2: { eexists _, _. split; [done|]. by apply wf_replace_record. }
  destruct (wf_active_get _ _ _ Hwf Hget) as (record & Hrec & Hpid & Hact & Hcomp).
  rewrite Hrec. simpl. destruct (py_gt _ _).
  { eexists _, _. split; [done|]. by apply wf_replace_record. }
  eexists _, _. split; [done|].
  assert (r < length (objs self)) as Hlt by by eapply lookup_lt_Some.
  split; simpl; try apply Hwf.
  - intros p' r' Hin. destruct (wf_active _ Hwf _ _ Hin) as (rec' & Hrec' & ?).
    destruct (decide (r = r')) as [<-|Hne].
    + rewrite list_lookup_insert_eq by done. simplify_eq. by eexists.
    + rewrite list_lookup_insert_ne by done. by eexists.
  - intros r' Hr'. destruct (wf_completed _ Hwf _ Hr') as (rec' & Hrec' & ?).
    destruct (decide (r = r')) as [<-|Hne].
    + pose proof (wf_refs _ Hwf) as Hnd.
      apply NoDup_app in Hnd as (_ & Hdisj & _).
      exfalso. eapply Hdisj; [|exact Hr'].
      apply list_elem_of_fmap. exists (p, r). split; [done|].
      by apply dict_get_Some_elem.
    + rewrite list_lookup_insert_ne by done. by eexists.
  - intros r' rec' Hr'.
    destruct (decide (r = r')) as [<-|Hne].
    + rewrite list_lookup_insert_eq in Hr' by done. simplify_eq. simpl.
      by rewrite Hact, Hcomp.
    + rewrite list_lookup_insert_ne in Hr' by done. by eapply wf_both.
Qed.

Lemma appended_events S psutil h (d : list (Z * ref)) :
  appended (d ≫= events_of S psutil h)
  = (filter (λ kv, doomed S psutil h kv) d).*2.
Proof.
  unfold appended. induction d as [|[k r] d IH]; [done|].
  csimpl. rewrite omap_app, IH. unfold events_of at 1. simpl.
  destruct (doomed S psutil h (k, r)) eqn:Hd.
  - rewrite filter_cons_True by (cbv beta; rewrite Hd; exact I).
    case_decide as HS; [|done].
    unfold doomed in Hd. simpl in Hd.
    rewrite bool_decide_false in Hd by (by intros ?). done.
  - rewrite filter_cons_False by (cbv beta; rewrite Hd; simpl; tauto).
    by case_decide.
Qed.

Lemma probed_events (S : gset Z) psutil h (d : list (Z * ref)) :
  probed (d ≫= events_of S psutil h) = filter (λ k, k ∉ S) d.*1.
Proof.
  unfold probed. induction d as [|[k r] d IH]; [done|].
  csimpl. rewrite omap_app, IH. unfold events_of at 1. simpl.
  case_decide as HS.
  - by rewrite filter_cons_False by (by intros ?).
  - rewrite filter_cons_True by done. by destruct (doomed _ _ _ _).
Qed.

Lemma mark_missing_spec l psutil now self :
  wf self →
  ∃ evs self',
    mark_missing l psutil now self = Some (evs, self') ∧
    appended evs = closing l psutil self ∧
    probed evs = filter (λ k, k ∉ (list_to_set l : gset Z)) (_active self).*1 ∧
    _active self' =
      filter (λ kv, ¬ doomed (list_to_set l) psutil (objs self) kv) (_active self) ∧
    _completed self' =
      foldl (deque_append (completed_max self)) (_completed self)
            (closing l psutil self) ∧
    completed_max self' = completed_max self ∧
    (∀ r, objs self' !! r =
          if decide (r ∈ closing l psutil self)
          then complete now <$> objs self !! r else objs self !! r).
Proof.
  intros Hwf.
  destruct (mark_loop_spec (list_to_set l) psutil now (objs self)
              (_active self) [] self) as (self' & Hrun & ?);
    [done | apply Hwf | done | |].
  { intros [p r] Hin. destruct (wf_active _ Hwf _ _ Hin) as (? & ? & _).
    by eexists. }
  eexists _, self'. split; [exact Hrun|].
  split; [apply appended_events|]. split; [apply probed_events|]. done.
Qed.

(** An entry is closed only through its own key. *)
Lemma closing_entry l psutil self p r :
  wf self → (p, r) ∈ _active self →
  r ∈ closing l psutil self ↔ doomed (list_to_set l) psutil (objs self) (p, r).
Proof.
  intros Hwf Hin. unfold closing. rewrite list_elem_of_fmap. split.
  - intros ([p' r'] & -> & [Hd Hin']%list_elem_of_filter). simpl in *.
    destruct (wf_active _ Hwf _ _ Hin) as (rec1 & Hr1 & Hp1 & _).
    destruct (wf_active _ Hwf _ _ Hin') as (rec2 & Hr2 & Hp2 & _).
    by simplify_eq.
  - intros Hd. exists (p, r). split; [done|]. by apply list_elem_of_filter.
Qed.

Lemma closing_active l psutil self r :
  r ∈ closing l psutil self → r ∈ (_active self).*2.
Proof.
  unfold closing. intros ([p' r'] & -> & [_ Hin]%list_elem_of_filter)%list_elem_of_fmap.
  apply list_elem_of_fmap. by exists (p', r').
Qed.

Lemma wf_mark_missing l psutil now self :
  wf self →
  ∃ evs self', mark_missing l psutil now self = Some (evs, self') ∧ wf self'.
Proof.
  intros Hwf.
  destruct (mark_missing_spec l psutil now self Hwf)
    as (evs & self' & Hrun & _ & _ & Ha & Hc & Hm & Ho).
  exists evs, self'. split; [done|].
  pose proof (wf_bound _ Hwf) as Hb.
  split.
  - rewrite Ha. eapply sublist_NoDup; [apply (wf_keys _ Hwf)|].
    apply fmap_sublist, sublist_filter.
  - rewrite Ha, Hc, deque_extend_drop by done.
    eapply sublist_NoDup;
      [|apply sublist_app; [reflexivity | apply sublist_drop]].
    eapply (NoDup_Permutation_proper _ ((_active self).*2 ++ _completed self));
      [|apply Hwf].
    unfold closing.
    rewrite (Permutation_app_comm (_completed self)), (assoc_L (++)).
    apply Permutation_app_tail. rewrite <- fmap_app.
    apply fmap_Permutation.
    rewrite Permutation_app_comm. apply filter_app_complement.
  - intros p r Hin. rewrite Ha in Hin.
    apply list_elem_of_filter in Hin as [Hd Hin].
    rewrite Ho, decide_False; [by apply Hwf|].
    by rewrite (closing_entry _ _ _ _ _ Hwf Hin).
  - intros r Hr. rewrite Hc, deque_extend_drop in Hr by done.
    apply subseteq_drop in Hr. rewrite Ho.
    case_decide as Hcl.
    + apply closing_active, list_elem_of_fmap in Hcl as ([p' r'] & Heq & Hin).
      simpl in Heq. subst r.
      destruct (wf_active _ Hwf _ _ Hin) as (record & -> & _).
      eexists. split; [done|]. simpl. split; by eexists.
    + apply elem_of_app in Hr as [Hr|Hr]; [by apply Hwf | done].
  - rewrite Hc, Hm. by apply deque_extend_length.
  - intros r record. rewrite Ho. case_decide as Hcl.
    + destruct (objs self !! r); intros ?; simplify_eq/=. done.
    + by apply Hwf.
Qed.

(** ** Runs never fail and keep the invariant *)

Lemma wf_exec c self :
  wf self → ∃ evs self', exec c self = Some (evs, self') ∧ wf self'.
Proof.
  intros Hwf. destruct c as [p nm ct pred now|l psutil now]; simpl.
  - destruct (wf_update_running p nm ct pred now self Hwf) as (r & self' & -> & ?).
    by eexists _, _.
  - by apply wf_mark_missing.
Qed.

Lemma run_total cs self :
  wf self → ∃ evs self', run cs self = Some (evs, self') ∧ wf self'.
Proof.
  revert self. induction cs as [|c cs IH]; intros self Hwf; simpl.
  - by eexists _, _.
  - destruct (wf_exec c self Hwf) as (ev & self1 & -> & Hwf1). simpl.
    destruct (IH self1 Hwf1) as (evs & self2 & -> & Hwf2). simpl.
    by eexists _, _.
Qed.

Lemma run_app cs1 cs2 self evs1 self1 evs2 self2 :
  run cs1 self = Some (evs1, self1) → run cs2 self1 = Some (evs2, self2) →
  run (cs1 ++ cs2) self = Some (evs1 ++ evs2, self2).
Proof.
  revert self evs1. induction cs1 as [|c cs1 IH]; intros self evs1 H1 H2; simpl in *.
  - by simplify_eq.
  - destruct (exec c self) as [[ev s]|]; simplify_eq/=.
    destruct (run cs1 s) as [[ev1 s1]|] eqn:Hr; simplify_eq/=.
    rewrite (IH _ _ Hr H2). simpl. by rewrite (assoc_L (++)).
Qed.

Lemma reachable_wf self : reachable self → wf self.
Proof.
  intros (n & cs & evs & Hrun).
  destruct (__init__ n) as [self0|] eqn:Hinit; simplify_eq/=.
  destruct (run_total cs self0 (wf_init _ _ Hinit)) as (? & ? & ? & ?).
  by simplify_eq.
Qed.

Lemma reachable_run cs self evs self' :
  reachable self → run cs self = Some (evs, self') → reachable self'.
Proof.
  intros (n & cs0 & evs0 & Hrun0) Hrun.
  destruct (__init__ n) as [self0|] eqn:Hinit; simplify_eq/=.
  exists n, (cs0 ++ cs), (evs0 ++ evs). rewrite Hinit. simpl.
  by eapply run_app.
Qed.

(** ** One call of [mark_missing], seen from one active record *)

Lemma mark_missing_length l psutil now self evs self' :
  wf self → mark_missing l psutil now self = Some (evs, self') →
  length (objs self') = length (objs self).
Proof.
  intros Hwf Hrun.
  destruct (mark_missing_spec l psutil now self Hwf)
    as (? & ? & ? & _ & _ & _ & _ & _ & Ho). simplify_eq.
  apply Nat.le_antisymm; apply Nat.nlt_ge; intros Hlt.
  - apply lookup_lt_is_Some in Hlt as [x Hx]. specialize (Ho (length (objs self))).
    rewrite Hx in Ho. rewrite (lookup_ge_None_2 (objs self)) in Ho by done.
    by case_decide.
  - apply lookup_lt_is_Some in Hlt as [x Hx]. specialize (Ho (length (objs self'))).
    rewrite lookup_ge_None_2 in Ho by done. rewrite Hx in Ho. by case_decide.
Qed.

Lemma doomed_entry S psutil h p r record :
  h !! r = Some record →
  doomed S psutil h (p, r)
  = bool_decide (p ∉ S) && verdict (psutil p) (create_time record).
Proof. intros Hr. unfold doomed. simpl. by rewrite Hr. Qed.

(** The record under [p] stays when [p] was observed or the verdict says so. *)
Lemma mark_missing_kept l psutil now self p r record :
  wf self →
  dict_get (_active self) p = Some r → objs self !! r = Some record →
  p ∈ l ∨ verdict (psutil p) (create_time record) = false →
  ∃ evs self',
    mark_missing l psutil now self = Some (evs, self') ∧ wf self' ∧
    dict_get (_active self') p = Some r ∧ objs self' !! r = Some record ∧
    (r ∉ appended evs) ∧ (r ∉ _completed self').
Proof.
  intros Hwf Hget Hrec Hkeep.
  destruct (mark_missing_spec l psutil now self Hwf)
    as (evs & self' & Hrun & Hev & _ & Ha & Hc & Hm & Ho).
  destruct (wf_mark_missing l psutil now self Hwf) as (? & ? & ? & Hwf').
  simplify_eq. exists evs, self'.
  assert (¬ doomed (list_to_set l) psutil (objs self) (p, r)) as Hnd.
  { rewrite (doomed_entry _ _ _ _ _ _ Hrec). destruct Hkeep as [Hin| ->].
    - rewrite bool_decide_false; [simpl; tauto|].
      intros Hn. apply Hn. by apply elem_of_list_to_set.
    - rewrite andb_false_r. simpl. tauto. }
  assert (r ∉ closing l psutil self) as Hncl.
  { rewrite (closing_entry _ _ _ p r Hwf); [done|]. by apply dict_get_Some_elem. }
  assert (dict_get (_active self') p = Some r) as Hget'.
  { rewrite Ha, (dict_get_filter _ _ _ _ (wf_keys _ Hwf) Hget).
    by rewrite decide_True. }
  split_and!; try done.
  - by rewrite Ho, decide_False.
  - by rewrite Hev.
  - pose proof (wf_refs _ Hwf') as Hnd'.
    apply NoDup_app in Hnd' as (_ & Hdisj & _). apply Hdisj.
    apply list_elem_of_fmap. exists (p, r). split; [done|].
    by apply dict_get_Some_elem.
Qed.

(** The record under [p] is closed when [p] is missing and the verdict says so. *)
Lemma mark_missing_closed l psutil now self p r record :
  wf self →
  dict_get (_active self) p = Some r → objs self !! r = Some record →
  p ∉ l → verdict (psutil p) (create_time record) = true →
  ∃ evs self',
    mark_missing l psutil now self = Some (evs, self') ∧ wf self' ∧
    dict_get (_active self') p = None ∧ (r ∉ (_active self').*2) ∧
    objs self' !! r = Some (complete now record) ∧
    r ∈ appended evs.
Proof.
  intros Hwf Hget Hrec Hmiss Hv.
  destruct (mark_missing_spec l psutil now self Hwf)
    as (evs & self' & Hrun & Hev & _ & Ha & Hc & Hm & Ho).
  destruct (wf_mark_missing l psutil now self Hwf) as (? & ? & ? & Hwf').
  simplify_eq. exists evs, self'.
  assert (doomed (list_to_set l) psutil (objs self) (p, r)) as Hd.
  { rewrite (doomed_entry _ _ _ _ _ _ Hrec), Hv, bool_decide_true; [done|].
    by rewrite elem_of_list_to_set. }
  assert (r ∈ closing l psutil self) as Hcl.
  { rewrite (closing_entry _ _ _ p r Hwf); [done|]. by apply dict_get_Some_elem. }
  assert (dict_get (_active self') p = None) as Hget'.
  { rewrite Ha, (dict_get_filter _ _ _ _ (wf_keys _ Hwf) Hget).
    rewrite decide_False; [done | tauto]. }
  split_and!; try done.
  - rewrite Ha. intros ([p' r'] & Heq & [Hnd Hin]%list_elem_of_filter)%list_elem_of_fmap.
    simpl in Heq. subst r'.
    by rewrite <- (closing_entry l psutil _ _ _ Hwf Hin) in Hnd.
  - by rewrite Ho, decide_True, Hrec.
  - by rewrite Hev.
Qed.

(** ** Objects the dict no longer holds are never touched again *)

Lemma exec_frozen c self evs self' r :
  wf self → r < length (objs self) → r ∉ (_active self).*2 →
  exec c self = Some (evs, self') →
  objs self' !! r = objs self !! r ∧ r < length (objs self') ∧
  (r ∉ (_active self').*2) ∧ (r ∉ appended evs) ∧
  (r ∉ _completed self → r ∉ _completed self').
Proof.
  intros Hwf Hlt Hna Hex. destruct c as [p nm ct pred now|l psutil now]; simpl in Hex.
  - assert (∀ s, s = (_replace_record p nm ct pred now self).2 →
      objs s !! r = objs self !! r ∧ r < length (objs s) ∧
      (r ∉ (_active s).*2) ∧ (r ∉ appended []) ∧
      (r ∉ _completed self → r ∉ _completed s)) as Hnew.
    { intros s ->. simpl. rewrite lookup_app_l, length_app by done.
      split_and!; [done | lia | | apply not_elem_of_nil | done].
      intros [->|?]%dict_set_refs; [lia | done]. }
    unfold update_running in Hex.
    destruct (dict_get (_active self) p) as [r0|] eqn:Hget; simplify_eq/=;
      [|exact (Hnew _ eq_refl)].
    destruct (objs self !! r0) as [rec0|] eqn:Hr0; simplify_eq/=.
    destruct (py_gt _ _); simplify_eq/=; [exact (Hnew _ eq_refl)|].
    rewrite length_insert, list_lookup_insert_ne.
    { split_and!; try done. apply not_elem_of_nil. }
    intros ->. apply Hna, list_elem_of_fmap. exists (p, r). split; [done|].
    by apply dict_get_Some_elem.
  - pose proof (mark_missing_length _ _ _ _ _ _ Hwf Hex) as Hlen.
    destruct (mark_missing_spec l psutil now self Hwf)
      as (? & ? & ? & Hev & _ & Ha & Hc & Hm & Ho). simplify_eq.
    assert (r ∉ closing l psutil self) as Hncl.
    { intros ?%closing_active. done. }
    split_and!.
    + by rewrite Ho, decide_False.
    + lia.
    + rewrite Ha. intros Hin. apply Hna.
      eapply elem_of_sublist; [exact Hin|]. apply fmap_sublist, sublist_filter.
    + by rewrite Hev.
    + intros Hnc. rewrite Hc, deque_extend_drop by apply Hwf.
      intros [?|?]%subseteq_drop%elem_of_app; done.
Qed.

Lemma run_frozen cs self evs self' r :
  wf self → r < length (objs self) → r ∉ (_active self).*2 →
  run cs self = Some (evs, self') →
  objs self' !! r = objs self !! r ∧
  (r ∉ (_active self').*2) ∧ (r ∉ appended evs) ∧
  (r ∉ _completed self → r ∉ _completed self').
Proof.
  revert self evs. induction cs as [|c cs IH]; intros self evs Hwf Hlt Hna Hrun;
    simpl in Hrun.
  - simplify_eq. split_and!; try done. apply not_elem_of_nil.
  - destruct (wf_exec c self Hwf) as (ev & self1 & Hex & Hwf1).
    rewrite Hex in Hrun. simpl in Hrun.
    destruct (run cs self1) as [[evs1 self2]|] eqn:Hrun1; simplify_eq/=.
    destruct (exec_frozen _ _ _ _ _ Hwf Hlt Hna Hex) as (Ho & Hlt1 & Hna1 & He & Hc).
    destruct (IH _ _ Hwf1 Hlt1 Hna1 Hrun1) as (Ho' & Hna' & He' & Hc').
    split_and!; [congruence | done | | auto].
    unfold appended in *. rewrite omap_app, elem_of_app. tauto.
Qed.

(** No record is closed twice in one call. *)
Lemma closing_NoDup l psutil self : wf self → NoDup (closing l psutil self).
Proof.
  intros Hwf. pose proof (wf_refs _ Hwf) as Hnd.
  apply NoDup_app in Hnd as (Hnd & _).
  eapply sublist_NoDup; [exact Hnd|]. apply fmap_sublist, sublist_filter.
Qed.

(** When the answer of psutil closes a record. *)
Lemma verdict_true res ct :
  verdict res ct = true ↔
  res = NoSuchProcess ∨
  ∃ t, res = CreateTime t ∧ py_gt (py_abs (t - ct)%Q) 1%Q = true.
Proof.
  unfold verdict. destruct res as [t| |]; split.
  - intros ?. right. by exists t.
  - by intros [?|(t' & ? & ?)]; simplify_eq.
  - by left.
  - done.
  - done.
  - by intros [?|(t' & ? & ?)].
Qed.

Lemma filter_agree {A} (P Q : A → Prop) `{!∀ x, Decision (P x)}
    `{!∀ x, Decision (Q x)} (l : list A) :
  (∀ x, x ∈ l → (P x ↔ Q x)) → filter P l = filter Q l.
Proof.
  induction l as [|x l IH]; intros HPQ; [done|].
  assert (filter P l = filter Q l) as Hl.
  { apply IH. intros y ?. apply HPQ. by right. }
  destruct (decide (P x)) as [HP|HP].
  - rewrite filter_cons_True by done.
    rewrite (filter_cons_True Q) by (apply HPQ; [left | done]). by f_equal.
  - rewrite filter_cons_False by done.
    rewrite (filter_cons_False Q); [done|].
    intros HQ. apply HP, HPQ; [left | done].
Qed.

(** ** The history after one call, and the clamp of a duration *)

(** The history after [mark_missing]: the old history followed by the
    records appended in the call, cut down from the old end to the
    bound. *)
Lemma mark_missing_history l psutil now self evs self' :
  wf self → mark_missing l psutil now self = Some (evs, self') →
  _completed self' =
    drop (length (_completed self ++ appended evs) - completed_max self)
         (_completed self ++ appended evs).
Proof.
  intros Hwf Hrun.
  destruct (mark_missing_spec l psutil now self Hwf)
    as (? & ? & ? & Hev & _ & _ & Hc & _). simplify_eq.
  rewrite Hc, Hev. apply deque_extend_drop, Hwf.
Qed.

(** What was appended last survives the cut when it fits the bound. *)
Lemma drop_keeps_new {A} (old new : list A) (n : nat) (x : A) :
  x ∈ new → length new ≤ n →
  x ∈ drop (length (old ++ new) - n) (old ++ new).
Proof.
  intros Hx Hlen. rewrite length_app.
  rewrite drop_app_le by lia. apply elem_of_app. by right.
Qed.

Lemma drop_nothing {A} (old new : list A) (n : nat) :
  length old + length new ≤ n →
  drop (length (old ++ new) - n) (old ++ new) = old ++ new.
Proof.
  intros Hlen. rewrite length_app.
  by replace (length old + length new - n) with 0 by lia.
Qed.


(** ** Claims *)


Lemma reachable_tracker99 : reachable tracker99.
Proof. by exists default_completed_max, [build99], []. Qed.


Lemma status_for_active self p r record :
  dict_get (_active self) p = Some r → objs self !! r = Some record →
  status_for p self = Some (status record, self).
Proof. intros Hget Hrec. unfold status_for. by rewrite Hget, Hrec. Qed.

Lemma run_access_denied p r record cs : ∀ self,
  wf self →
  dict_get (_active self) p = Some r → objs self !! r = Some record →
  Forall (access_denied_for p) cs →
  ∃ evs self',
    run cs self = Some (evs, self') ∧ wf self' ∧
    dict_get (_active self') p = Some r ∧ objs self' !! r = Some record ∧
    (r ∉ appended evs).
Proof.
  induction cs as [|c cs IH]; intros self Hwf Hget Hrec Hall; simpl.
  - eexists _, _. split_and!; try done. apply not_elem_of_nil.
  - apply Forall_cons in Hall as [Hc Hall].
    destruct c as [|l psutil now]; [done|]. destruct Hc as [Hmiss Hden]. simpl.
    destruct (mark_missing_kept l psutil now self p r record)
      as (ev & self1 & -> & Hwf1 & Hget1 & Hrec1 & Hev1 & _); try done.
    { right. by rewrite Hden. }
    simpl.
    destruct (IH self1 Hwf1 Hget1 Hrec1 Hall)
      as (evs & self2 & -> & Hwf2 & Hget2 & Hrec2 & Hev2).
    simpl. eexists _, _. split_and!; try done.
    unfold appended in *. rewrite omap_app, elem_of_app. tauto.
Qed.

(** C2. While psutil is denied access to a pid that is missing from the
    list, on every one of any number of consecutive [mark_missing] calls,
    the record of that pid is never closed: it stays in [_active], unchanged,
    with status "running", and never enters [_completed]. *)
Theorem access_denied_never_closes self p r record cs :
  reachable self →
  dict_get (_active self) p = Some r →
  objs self !! r = Some record →
  Forall (access_denied_for p) cs →
  ∃ evs self',
    run cs self = Some (evs, self') ∧
    dict_get (_active self') p = Some r ∧
    objs self' !! r = Some record ∧
    status record = "running" ∧
    status_for p self' = Some ("running", self') ∧
    (r ∉ appended evs) ∧ (r ∉ _completed self').
Proof.
  intros Hwf%reachable_wf Hget Hrec Hall.
  destruct (run_access_denied p r record cs self Hwf Hget Hrec Hall)
    as (evs & self' & Hrun & Hwf' & Hget' & Hrec' & Hev).
  destruct (wf_active_get _ _ _ Hwf Hget) as (? & ? & _ & Hact & _). simplify_eq.
  assert (status record = "running") as Hst by (unfold status; by rewrite Hact).
  exists evs, self'. split_and!; try done.
  - by rewrite (status_for_active _ _ _ _ Hget' Hrec'), Hst.
  - pose proof (wf_refs _ Hwf') as Hnd.
    apply NoDup_app in Hnd as (_ & Hdisj & _). apply Hdisj.
    apply list_elem_of_fmap. exists (p, r). split; [done|].
    by apply dict_get_Some_elem.
Qed.

Lemma access_denied_never_closes_witness :
  reachable tracker99 ∧
  Forall (access_denied_for 99)
    [MarkMissing [] (λ _, AccessDenied) 1005%Q;
     MarkMissing [7%Z] (λ _, AccessDenied) 1007%Q] ∧
  ∃ evs self',
    run [MarkMissing [] (λ _, AccessDenied) 1005%Q;
         MarkMissing [7%Z] (λ _, AccessDenied) 1007%Q] tracker99
      = Some (evs, self') ∧
    status_for 99 self' = Some ("running", self').
Proof.
  assert (Forall (access_denied_for 99)
    [MarkMissing [] (λ _, AccessDenied) 1005%Q;
     MarkMissing [7%Z] (λ _, AccessDenied) 1007%Q]) as Hall.
  { repeat constructor.
    - apply not_elem_of_nil.
    - intros Hin%list_elem_of_singleton. discriminate Hin. }
  split; [apply reachable_tracker99|]. split; [exact Hall|].
  destruct (access_denied_never_closes tracker99 99 0 record99 _
              reachable_tracker99 eq_refl eq_refl Hall)
    as (evs & self' & Hrun & _ & _ & _ & Hst & _).
  exists evs, self'. split; [exact Hrun | exact Hst].
Defined.

(** C8, as the code has it. [mark_missing] leaves every active record whose
    pid is in the list as it is: same object under the same key, no field
    changed, not moved to [_completed], psutil not asked about it. psutil
    is asked once about each active pid outside the list and about nothing
    else. [_completed] becomes the old history followed by the records
    closed in this call, cut from the old end to the bound: it is unchanged
    when nothing is closed, it is the old history with the closed records
    appended when they fit, and otherwise the oldest entries are evicted;
    it never holds anything but old entries and records closed in this
    call. Objects that are not closed keep every field, and the deque bound
    and the number of objects stay the same. *)
Theorem mark_missing_frame self l psutil now :
  reachable self →
  ∃ evs self',
    mark_missing l psutil now self = Some (evs, self') ∧
    (∀ p r record,
       p ∈ l → dict_get (_active self) p = Some r → objs self !! r = Some record →
       dict_get (_active self') p = Some r ∧ objs self' !! r = Some record ∧
       (r ∉ appended evs) ∧ (r ∉ _completed self') ∧ (p ∉ probed evs)) ∧
    (∀ p, p ∈ probed evs ↔ p ∈ dict_keys (_active self) ∧ (p ∉ l)) ∧
    NoDup (probed evs) ∧
    _completed self' =
      foldl (deque_append (completed_max self)) (_completed self) (appended evs) ∧
    _completed self' =
      drop (length (_completed self ++ appended evs) - completed_max self)
           (_completed self ++ appended evs) ∧
    (length (_completed self) + length (appended evs) ≤ completed_max self →
     _completed self' = _completed self ++ appended evs) ∧
    (appended evs = [] → _completed self' = _completed self) ∧
    (∀ r, r ∈ _completed self' → r ∈ _completed self ∨ r ∈ appended evs) ∧
    (∀ r, r ∈ appended evs → length (appended evs) ≤ completed_max self →
          r ∈ _completed self') ∧
    NoDup (appended evs) ∧
    (∀ r, r ∈ appended evs → r ∈ (_active self).*2) ∧
    (∀ r, r ∉ appended evs → objs self' !! r = objs self !! r) ∧
    (_active self' `sublist_of` _active self) ∧
    completed_max self' = completed_max self ∧
    length (objs self') = length (objs self).
Proof.
  intros Hwf%reachable_wf.
  destruct (mark_missing_spec l psutil now self Hwf)
    as (evs & self' & Hrun & Hev & Hpr & Ha & Hc & Hm & Ho).
  pose proof (mark_missing_history _ _ _ _ _ _ Hwf Hrun) as Hhist.
  assert (∀ p, p ∈ probed evs ↔ p ∈ dict_keys (_active self) ∧ (p ∉ l)) as Hprobed.
  { intros p. rewrite Hpr, list_elem_of_filter, elem_of_list_to_set.
    unfold dict_keys. tauto. }
  exists evs, self'. split_and!; try done.
  - intros p r record Hin Hget Hrec.
    destruct (mark_missing_kept l psutil now self p r record)
      as (? & ? & ? & _ & ? & ? & ? & ?); try done; [by left|].
    simplify_eq. split_and!; try done. rewrite Hprobed. tauto.
  - rewrite Hpr. apply NoDup_filter, Hwf.
  - by rewrite Hev.
  - intros Hroom. by rewrite Hhist, drop_nothing.
  - intros Hnil. by rewrite Hc, <- Hev, Hnil.
  - intros r Hr. rewrite Hhist in Hr.
    apply elem_of_app. eapply subseteq_drop, Hr.
  - intros r Hr Hfit. rewrite Hhist. by apply drop_keeps_new.
  - rewrite Hev. by apply closing_NoDup.
  - intros r. rewrite Hev. apply closing_active.
  - intros r Hr. rewrite Ho, decide_False; [done|]. by rewrite <- Hev.
  - rewrite Ha. apply sublist_filter.
  - by eapply mark_missing_length.
Qed.

Lemma reachable_first_gone : reachable first_gone.
Proof. by exists 1%Z, three_then_first_gone, [Probed 1%Z; Appended 0]. Qed.

Lemma mark_missing_frame_witness :
  reachable first_gone ∧
  ∃ evs self',
    mark_missing [2%Z] (λ _, NoSuchProcess) 50%Q first_gone = Some (evs, self') ∧
    dict_get (_active self') 2 = Some 1 ∧ objs self' !! 1 = Some job2 ∧
    (2%Z ∉ probed evs) ∧
    _completed self' = [2].
Proof.
  split; [apply reachable_first_gone|].
  destruct (mark_missing_frame first_gone [2%Z] (λ _, NoSuchProcess) 50%Q
              reachable_first_gone)
    as (evs & self' & Hrun & Hobs & _ & _ & _ & Hhist & _).
  exists evs, self'. split; [exact Hrun|].
  destruct (Hobs 2%Z 1 job2) as (Hget & Hrec & _ & _ & Hask);
    [apply list_elem_of_singleton; reflexivity | reflexivity | reflexivity |].
  split; [exact Hget|]. split; [exact Hrec|]. split; [exact Hask|].
  assert (∃ st, mark_missing [2%Z] (λ _, NoSuchProcess) 50%Q first_gone
                = Some ([Probed 3%Z; Appended 2], st)) as [st Hc]
    by (eexists; reflexivity).
  assert (evs = [Probed 3%Z; Appended 2]) as Hevs by congruence.
  rewrite Hhist, Hevs. reflexivity.
Defined.

(** C8 as stated fails: when the history is full, a call that closes a
    record evicts an entry that the call did not close. With capacity 1
    and the history holding record 0, closing record 2 leaves the history
    holding record 2 only, so the history is not unchanged apart from the
    records closed in the call. *)
Lemma full_history_loses_old_entry :
  reachable first_gone ∧
  ∃ evs self',
    mark_missing [2%Z] (λ _, NoSuchProcess) 50%Q first_gone = Some (evs, self') ∧
    _completed first_gone = [0] ∧ appended evs = [2] ∧ _completed self' = [2] ∧
    _completed self' ≠ _completed first_gone ++ appended evs ∧
    ¬ (∀ r, r ∉ appended evs → (r ∈ _completed first_gone ↔ r ∈ _completed self')).
Proof.
  split; [apply reachable_first_gone|].
  eexists _, _. split; [reflexivity|].
  split; [reflexivity|]. split; [reflexivity|]. split; [reflexivity|].
  split; [discriminate|].
  intros Hall. specialize (Hall 0). simpl in Hall.
  assert (0 ∈ [2]) as Hin.
  { apply Hall; [|left]. intros Hin%list_elem_of_singleton. discriminate Hin. }
  apply list_elem_of_singleton in Hin. discriminate Hin.
Qed.

Lemma filter_all {A} (P : A → Prop) `{!∀ x, Decision (P x)} (l : list A) :
  (∀ x, x ∈ l → P x) → filter P l = l.
Proof.
  induction l as [|x l IH]; intros HP; [done|].
  rewrite filter_cons_True by (apply HP; left).
  f_equal. apply IH. intros y ?. apply HP. by right.
Qed.

Lemma filter_none {A} (P : A → Prop) `{!∀ x, Decision (P x)} (l : list A) :
  (∀ x, x ∈ l → ¬ P x) → filter P l = [].
Proof.
  induction l as [|x l IH]; intros HP; [done|].
  rewrite filter_cons_False by (apply HP; left).
  apply IH. intros y ?. apply HP. by right.
Qed.

(** After a call, what is left in the dict is what the same answers keep. *)
Lemma closing_again l psutil now self evs self' :
  wf self → mark_missing l psutil now self = Some (evs, self') →
  closing l psutil self' = [] ∧
  filter (λ kv, ¬ doomed (list_to_set l) psutil (objs self') kv) (_active self')
  = _active self'.
Proof.
  intros Hwf Hrun.
  destruct (mark_missing_spec l psutil now self Hwf)
    as (? & ? & ? & _ & _ & Ha & _ & _ & Ho). simplify_eq.
  assert (∀ kv, kv ∈ _active self' →
            ¬ doomed (list_to_set l) psutil (objs self') kv) as Hkeep.
  { intros [p r]. rewrite Ha. intros [Hnd Hin]%list_elem_of_filter.
    unfold doomed in *. simpl in *.
    rewrite Ho, decide_False; [done|].
    by rewrite (closing_entry _ _ _ p r Hwf Hin). }
  split.
  - unfold closing. rewrite filter_none; [done|].
    intros kv Hin Hd. by apply (Hkeep kv).
  - by apply filter_all.
Qed.

(** C7. [mark_missing] is idempotent: with the same list and the same
    psutil answers, a second call right after the first leaves the tracker
    exactly as the first left it and appends nothing; within a call no
    record is appended twice. *)
Theorem mark_missing_idempotent self l psutil now :
  reachable self →
  ∃ evs self',
    mark_missing l psutil now self = Some (evs, self') ∧
    NoDup (appended evs) ∧
    ∀ now', ∃ evs',
      mark_missing l psutil now' self' = Some (evs', self') ∧
      appended evs' = [].
Proof.
  intros Hwf%reachable_wf.
  destruct (wf_mark_missing l psutil now self Hwf) as (evs & self' & Hrun & Hwf').
  destruct (mark_missing_spec l psutil now self Hwf)
    as (? & ? & ? & Hev & _). simplify_eq.
  exists evs, self'. split; [done|]. split.
  { rewrite Hev. by apply closing_NoDup. }
  intros now'.
  destruct (closing_again _ _ _ _ _ _ Hwf Hrun) as [Hnil Hsame].
  destruct (mark_missing_spec l psutil now' self' Hwf')
    as (evs' & self'' & Hrun' & Hev' & _ & Ha' & Hc' & Hm' & Ho').
  rewrite Hnil in *. rewrite Hsame in Ha'. simpl in Hc'.
  assert (objs self'' = objs self') as Hobjs.
  { apply list_eq. intros i. rewrite Ho'. by rewrite decide_False by apply not_elem_of_nil. }
  assert (self'' = self') as ->.
  { destruct self', self''. simpl in *. by subst. }
  by exists evs'.
Qed.

Lemma mark_missing_idempotent_witness :
  reachable tracker99 ∧
  ∃ evs self' evs',
    mark_missing [] (λ _, NoSuchProcess) 1010%Q tracker99 = Some (evs, self') ∧
    mark_missing [] (λ _, NoSuchProcess) 1010%Q self' = Some (evs', self').
Proof.
  split; [apply reachable_tracker99|].
  destruct (mark_missing_idempotent tracker99 [] (λ _, NoSuchProcess) 1010%Q
              reachable_tracker99)
    as (evs & self' & Hrun & _ & Hagain).
  destruct (Hagain 1010%Q) as (evs' & Hrun' & _).
  exists evs, self', evs'. split; [exact Hrun | exact Hrun'].
Defined.

Lemma reachable_done99 : reachable done99.
Proof.
  exists default_completed_max,
    [build99; MarkMissing [] (λ _, NoSuchProcess) 1010%Q],
    [Probed 99; Appended 0].
  reflexivity.
Qed.

(** C5. On every record of a reachable tracker [actual_duration] and
    [completed_at] are both unset or both set. Once [actual_duration] is
    set the record is not in [_active], and after any further calls
    ([mark_missing] or [update_running]) every field of it is as it was and
    it is still not in [_active]. *)
Theorem completion_is_terminal self r record :
  reachable self →
  objs self !! r = Some record →
  (is_Some (actual_duration record) ↔ is_Some (completed_at record)) ∧
  (is_Some (actual_duration record) →
     (r ∉ (_active self).*2) ∧
     ∀ cs, ∃ evs self',
       run cs self = Some (evs, self') ∧
       objs self' !! r = Some record ∧
       (r ∉ (_active self').*2) ∧ (r ∉ appended evs)).
Proof.
  intros Hwf%reachable_wf Hrec. split.
  - pose proof (wf_both _ Hwf _ _ Hrec) as Hboth.
    rewrite <- !not_eq_None_Some. tauto.
  - intros Hset.
    assert (r ∉ (_active self).*2) as Hna.
    { intros ([p r'] & Heq & Hin)%list_elem_of_fmap. simpl in Heq. subst r'.
      destruct (wf_active _ Hwf _ _ Hin) as (? & ? & _ & Hnone & _).
      simplify_eq. rewrite Hnone in Hset. by destruct Hset. }
    split; [done|]. intros cs.
    destruct (run_total cs self Hwf) as (evs & self' & Hrun & _).
    destruct (run_frozen cs self evs self' r Hwf) as (Ho & Hna' & Hev & _);
      [by eapply lookup_lt_Some | done | done |].
    exists evs, self'. by rewrite Ho.
Qed.

Lemma completion_is_terminal_witness :
  reachable done99 ∧ done99.(objs) !! 0 = Some closed99 ∧
  ∃ evs self',
    run [build99; MarkMissing [] (λ _, NoSuchProcess) 1020%Q] done99
      = Some (evs, self') ∧
    objs self' !! 0 = Some closed99.
Proof.
  split; [apply reachable_done99|]. split; [reflexivity|].
  destruct (completion_is_terminal done99 0 closed99 reachable_done99 eq_refl)
    as [_ Hterm].
  destruct Hterm as [_ Hrun]; [by eexists|].
  destruct (Hrun [build99; MarkMissing [] (λ _, NoSuchProcess) 1020%Q])
    as (evs & self' & Hr & Ho & _).
  exists evs, self'. split; [exact Hr | exact Ho].
Defined.

Lemma dict_only_entry {V} (d : list (Z * V)) k v :
  NoDup d.*1 → dict_get d k = Some v → filter (λ kv, kv.1 = k) d = [(k, v)].
Proof.
  induction d as [|[k0 v0] d IH]; csimpl; intros Hnd Hget; [done|].
  apply NoDup_cons in Hnd as [Hk0 Hnd].
  destruct (decide (k = k0)) as [->|Hne]; simplify_eq.
  - rewrite filter_cons_True by done. f_equal.
    apply filter_none. intros [k' v'] Hin ?. simpl in *. subst k'.
    apply Hk0, list_elem_of_fmap. by exists (k0, v').
  - rewrite filter_cons_False by (simpl; congruence). by apply IH.
Qed.

(** C3. When [update_running] is called for a pid that has an active
    record whose create_time differs from the given one by more than 1.0,
    a fresh record (first_seen = last_seen = now) replaces the old one
    under the pid, which is then the only entry for that pid; the old
    record is not written to, [_completed] is not touched, and whatever
    calls follow, the old record is never completed and never enters
    [_completed]. *)
Theorem pid_reuse_replaces_record self p r old nm ct pred now :
  reachable self →
  dict_get (_active self) p = Some r →
  objs self !! r = Some old →
  py_gt (py_abs (create_time old - ct)%Q) 1%Q = true →
  ∃ self',
    update_running p nm ct pred now self = Some (length (objs self), self') ∧
    objs self' =
      objs self ++ [{| pid := p; name := nm; create_time := ct; predicted := pred;
                       first_seen := now; last_seen := now;
                       actual_duration := None; completed_at := None |}] ∧
    dict_get (_active self') p = Some (length (objs self)) ∧
    filter (λ kv, kv.1 = p) (_active self') = [(p, length (objs self))] ∧
    dict_keys (_active self') = dict_keys (_active self) ∧
    _completed self' = _completed self ∧
    r ≠ length (objs self) ∧
    (r ∉ (_active self').*2) ∧ (r ∉ _completed self') ∧
    ∀ cs, ∃ evs self'',
      run cs self' = Some (evs, self'') ∧
      objs self'' !! r = Some old ∧
      (r ∉ appended evs) ∧ (r ∉ _completed self'') ∧ (r ∉ (_active self'').*2).
Proof.
  intros Hwf%reachable_wf Hget Hold Hfar.
  pose proof (wf_replace_record p nm ct pred now self Hwf) as Hwf'.
  set (self' := (_replace_record p nm ct pred now self).2) in *.
  assert (update_running p nm ct pred now self = Some (length (objs self), self'))
    as Hrun.
  { unfold update_running. rewrite Hget, Hold.
    cbv beta iota delta [mbind option_bind]. by rewrite Hfar. }
  assert (r < length (objs self)) as Hlt by by eapply lookup_lt_Some.
  assert ((p, r) ∈ _active self) as Hin by by apply dict_get_Some_elem.
  assert (dict_get (_active self') p = Some (length (objs self))) as Hget'.
  { simpl. rewrite dict_get_set. by rewrite decide_True. }
  assert (r ∉ (_active self').*2) as Hna.
  { intros ([k x] & Heq & Hin')%list_elem_of_fmap. simpl in Heq. subst x.
    apply dict_set_elem in Hin' as [[_ ?]|[Hne Hin']]; [lia | | apply Hwf].
    destruct (wf_active _ Hwf _ _ Hin) as (? & ? & ? & _).
    destruct (wf_active _ Hwf _ _ Hin') as (? & ? & ? & _).
    by simplify_eq. }
  assert (r ∉ _completed self') as Hnc.
  { pose proof (wf_refs _ Hwf) as Hnd.
    apply NoDup_app in Hnd as (_ & Hdisj & _). apply Hdisj.
    apply list_elem_of_fmap. by exists (p, r). }
  exists self'. split_and!; try done.
  - by apply dict_only_entry; [apply Hwf'|].
  - unfold dict_keys. simpl. rewrite dict_set_keys, decide_True; [done|].
    apply list_elem_of_fmap. by exists (p, r).
  - lia.
  - intros cs.
    destruct (run_total cs self' Hwf') as (evs & self'' & Hrun' & _).
    destruct (run_frozen cs self' evs self'' r Hwf') as (Ho & Hna' & Hev & Hc);
      [simpl; rewrite length_app; lia | done | done |].
    exists evs, self''. split_and!; try done; [|by apply Hc].
    rewrite Ho. simpl. by rewrite lookup_app_l.
Qed.

Lemma pid_reuse_replaces_record_witness :
  reachable tracker99 ∧
  py_gt (py_abs (create_time record99 - 1500)%Q) 1%Q = true ∧
  ∃ self',
    update_running 99 "other" 1500%Q 3%Q 1600%Q tracker99 = Some (1, self') ∧
    dict_get (_active self') 99 = Some 1 ∧ _completed self' = [].
Proof.
  split; [apply reachable_tracker99|]. split; [reflexivity|].
  destruct (pid_reuse_replaces_record tracker99 99 0 record99
              "other" 1500%Q 3%Q 1600%Q reachable_tracker99 eq_refl eq_refl eq_refl)
    as (self' & Hrun & _ & Hget & _ & _ & Hc & _).
  exists self'. split; [exact Hrun|]. split; [exact Hget | exact Hc].
Defined.

Lemma update_running_same p nm ct pred now self r record :
  dict_get (_active self) p = Some r → objs self !! r = Some record →
  same_identity (create_time record) (nm, ct, pred, now) →
  update_running p nm ct pred now self =
    Some (r, {| objs := <[r := touch nm pred now record]> (objs self);
                _active := _active self;
                _completed := _completed self;
                completed_max := completed_max self |}).
Proof.
  unfold same_identity, update_running. simpl. intros -> -> Hnear.
  cbv beta iota delta [mbind option_bind]. by rewrite Hnear.
Qed.

Lemma run_same_identity p r cs : ∀ self record,
  wf self →
  dict_get (_active self) p = Some r → objs self !! r = Some record →
  Forall (same_identity (create_time record)) cs →
  ∃ self' record',
    run (observe_call p <$> cs) self = Some ([], self') ∧
    _active self' = _active self ∧ _completed self' = _completed self ∧
    completed_max self' = completed_max self ∧
    length (objs self') = length (objs self) ∧
    (∀ r', r' ≠ r → objs self' !! r' = objs self !! r') ∧
    objs self' !! r = Some record' ∧
    pid record' = pid record ∧
    create_time record' = create_time record ∧
    first_seen record' = first_seen record ∧
    actual_duration record' = actual_duration record ∧
    completed_at record' = completed_at record ∧
    (cs = [] → record' = record) ∧
    (∀ cs0 nm ct pred now, cs = cs0 ++ [(nm, ct, pred, now)] →
       name record' = nm ∧ predicted record' = pred ∧ last_seen record' = now).
Proof.
  induction cs as [|[[[nm ct] pred] now] cs IH] using rev_ind;
    intros self record Hwf Hget Hrec Hall.
  - exists self, record. split_and!; try done.
    intros cs0 ???? Heq. by destruct cs0.
  - apply Forall_app in Hall as [Hall Hlast].
    rewrite Forall_singleton in Hlast.
    destruct (IH self record Hwf Hget Hrec Hall)
      as (self1 & rec1 & Hrun1 & Ha & Hc & Hm & Hlen & Hoth & Hrec1 & Hpid & Hct
          & Hfs & Had & Hca & _ & _).
    rewrite <- Ha in Hget. rewrite <- Hct in Hlast.
    pose proof (update_running_same p nm ct pred now self1 r rec1 Hget Hrec1 Hlast)
      as Hstep.
    eexists _, (touch nm pred now rec1). split_and!.
    + rewrite fmap_app. eapply (run_app _ _ _ [] _ []); [exact Hrun1|].
      simpl. rewrite Hstep. reflexivity.
    + done.
    + done.
    + done.
    + simpl. by rewrite length_insert.
    + intros r' Hne. simpl. by rewrite list_lookup_insert_ne, Hoth.
    + simpl. apply list_lookup_insert_eq. by eapply lookup_lt_Some.
    + done.
    + done.
    + done.
    + done.
    + done.
    + intros Heq. by destruct cs.
    + intros cs0 nm' ct' pred' now' Heq.
      apply app_inj_tail in Heq as [_ Heq]. by simplify_eq.
Qed.

(** C4, as the code has it. Repeated [update_running] calls for a pid whose
    active record has a create_time within 1.0 of the given one never
    create a second record: the dict, the history and the number of
    objects stay as they are and only that one object is written. Its pid,
    create_time and first_seen (and its unset completion fields) never
    change; name, predicted and last_seen are those of the latest call,
    last_seen being that call's clock reading. *)
Theorem same_identity_updates_in_place self p r record obs :
  reachable self →
  dict_get (_active self) p = Some r →
  objs self !! r = Some record →
  Forall (same_identity (create_time record)) obs →
  ∃ self' record',
    run (observe_call p <$> obs) self = Some ([], self') ∧
    _active self' = _active self ∧ _completed self' = _completed self ∧
    length (objs self') = length (objs self) ∧
    (∀ r', r' ≠ r → objs self' !! r' = objs self !! r') ∧
    objs self' !! r = Some record' ∧
    pid record' = pid record ∧
    create_time record' = create_time record ∧
    first_seen record' = first_seen record ∧
    actual_duration record' = None ∧ completed_at record' = None ∧
    (obs = [] → record' = record) ∧
    (∀ obs0 nm ct pred now, obs = obs0 ++ [(nm, ct, pred, now)] →
       name record' = nm ∧ predicted record' = pred ∧ last_seen record' = now).
Proof.
  intros Hwf%reachable_wf Hget Hrec Hall.
  destruct (wf_active_get _ _ _ Hwf Hget) as (? & ? & _ & Had0 & Hca0).
  simplify_eq.
  destruct (run_same_identity p r obs self record Hwf Hget Hrec Hall)
    as (self' & record' & Hrun & Ha & Hc & _ & Hlen & Hoth & Hrec' & Hpid & Hct
        & Hfs & Had & Hca & Hnil & Hlast).
  exists self', record'. split_and!; try done; congruence.
Qed.

Lemma same_identity_updates_in_place_witness :
  reachable tracker99 ∧
  Forall (same_identity (create_time record99))
    [("build", (2001 # 2)%Q, 13%Q, 1005%Q); ("make", 1000%Q, 14%Q, 1007%Q)] ∧
  ∃ self' record',
    run (observe_call 99 <$>
           [("build", (2001 # 2)%Q, 13%Q, 1005%Q); ("make", 1000%Q, 14%Q, 1007%Q)])
        tracker99 = Some ([], self') ∧
    objs self' !! 0 = Some record' ∧
    create_time record' = 1000%Q ∧ first_seen record' = 1003%Q ∧
    name record' = "make" ∧ last_seen record' = 1007%Q.
Proof.
  assert (Forall (same_identity (create_time record99))
    [("build", (2001 # 2)%Q, 13%Q, 1005%Q); ("make", 1000%Q, 14%Q, 1007%Q)])
    as Hall by (repeat constructor).
  split; [apply reachable_tracker99|]. split; [exact Hall|].
  destruct (same_identity_updates_in_place tracker99 99 0 record99 _
              reachable_tracker99 eq_refl eq_refl Hall)
    as (self' & record' & Hrun & _ & _ & _ & _ & Hrec & _ & Hct & Hfs & _ & _ & _
        & Hlast).
  destruct (Hlast [("build", (2001 # 2)%Q, 13%Q, 1005%Q)] "make" 1000%Q 14%Q 1007%Q
              eq_refl) as (Hnm & _ & Hls).
  exists self', record'.
  split; [exact Hrun|]. split; [exact Hrec|]. split; [exact Hct|].
  split; [exact Hfs|]. split; [exact Hnm | exact Hls].
Defined.

(** C4 as stated fails: when the clock reads the same value on two calls,
    last_seen does not strictly advance. *)
Lemma last_seen_need_not_advance :
  same_identity (create_time record99) ("build", 1000%Q, (25 # 2)%Q, 1003%Q) ∧
  ∃ self' record',
    run [observe_call 99 ("build", 1000%Q, (25 # 2)%Q, 1003%Q)] tracker99
      = Some ([], self') ∧
    objs self' !! 0 = Some record' ∧
    ¬ (last_seen record99 < last_seen record')%Q.
Proof.
  split; [reflexivity|].
  eexists _, _. split; [reflexivity|]. split; [reflexivity|].
  apply Qlt_irrefl.
Qed.

Lemma exec_history c self ev self' :
  wf self → exec c self = Some (ev, self') →
  _completed self' =
    foldl (deque_append (completed_max self)) (_completed self) (appended ev) ∧
  completed_max self' = completed_max self.
Proof.
  intros Hwf Hex. destruct c as [p nm ct pred now|l psutil now]; simpl in Hex.
  - unfold update_running in Hex.
    destruct (dict_get (_active self) p) as [r|]; simplify_eq/=; [|done].
    destruct (objs self !! r) as [record|]; simplify_eq/=.
    by destruct (py_gt _ _); simplify_eq/=.
  - destruct (mark_missing_spec l psutil now self Hwf)
      as (? & ? & ? & Hev & _ & _ & Hc & Hm & _). simplify_eq.
    by rewrite Hev.
Qed.

Lemma run_history cs : ∀ self evs self',
  wf self → run cs self = Some (evs, self') →
  _completed self' =
    foldl (deque_append (completed_max self)) (_completed self) (appended evs) ∧
  completed_max self' = completed_max self.
Proof.
  induction cs as [|c cs IH]; intros self evs self' Hwf Hrun; simpl in Hrun.
  - by simplify_eq.
  - destruct (wf_exec c self Hwf) as (ev & self1 & Hex & Hwf1).
    rewrite Hex in Hrun. simpl in Hrun.
    destruct (run cs self1) as [[evs1 self2]|] eqn:Hrun1; simplify_eq/=.
    destruct (exec_history _ _ _ _ Hwf Hex) as [Hc Hm].
    destruct (IH _ _ _ Hwf1 Hrun1) as [Hc' Hm'].
    unfold appended in *. rewrite omap_app, foldl_app.
    rewrite Hc', Hm', Hm, Hc. split; [done | congruence].
Qed.

(** C6, as the code has it. The history is bounded and first-in
    first-out: a tracker built with capacity N (20 by default) holds, after
    any calls, the last N of all the records it ever appended, oldest
    first; so after N+k completions (k>0) its length is N and it holds
    exactly the N most recent ones, the k oldest having been evicted.
    Every call turns the history into a suffix of the old history followed
    by the records the call appended. *)
Theorem history_keeps_newest n self0 cs evs self :
  __init__ n = Some self0 →
  run cs self0 = Some (evs, self) →
  default_completed_max = 20%Z ∧
  _completed self =
    drop (length (appended evs) - Z.to_nat n) (appended evs) ∧
  (∀ k, 0 < k → length (appended evs) = Z.to_nat n + k →
     length (_completed self) = Z.to_nat n ∧
     _completed self = drop k (appended evs)) ∧
  (∀ c ev self', exec c self = Some (ev, self') →
     _completed self' =
       drop (length (_completed self ++ appended ev) - Z.to_nat n)
            (_completed self ++ appended ev)).
Proof.
  intros Hinit Hrun. pose proof (wf_init _ _ Hinit) as Hwf0.
  destruct (run_total cs self0 Hwf0) as (? & ? & ? & Hwf). simplify_eq.
  destruct (run_history _ _ _ _ Hwf0 Hrun) as [Hc Hm].
  assert (completed_max self0 = Z.to_nat n ∧ _completed self0 = []) as [Hn Hnil].
  { unfold __init__ in Hinit. by case_decide; simplify_eq. }
  rewrite Hn, Hnil in *.
  rewrite deque_extend_drop in Hc by (simpl; lia). simpl in Hc.
  split_and!; [done | done | |].
  - intros k Hk Hlen. rewrite Hc, length_drop, Hlen.
    split; [lia | f_equal; lia].
  - intros c ev self' Hex.
    destruct (exec_history _ _ _ _ Hwf Hex) as [Hc' _].
    rewrite Hc', Hm. apply deque_extend_drop.
    rewrite <- Hm. apply Hwf.
Qed.

Lemma history_keeps_newest_witness :
  ∃ self0 evs self,
    __init__ 2 = Some self0 ∧ run three_then_gone self0 = Some (evs, self) ∧
    appended evs = [0; 1; 2] ∧ _completed self = [1; 2].
Proof.
  exists {| objs := []; _active := []; _completed := []; completed_max := 2 |}.
  assert (∃ evs self,
    run three_then_gone
        {| objs := []; _active := []; _completed := []; completed_max := 2 |}
      = Some (evs, self) ∧ appended evs = [0; 1; 2]) as (evs & self & Hrun & Hev).
  { eexists _, _. split; reflexivity. }
  exists evs, self.
  destruct (history_keeps_newest 2 _ three_then_gone evs self eq_refl Hrun)
    as (_ & _ & Hk & _).
  destruct (Hk 1) as [_ Hdrop]; [lia | by rewrite Hev |].
  rewrite Hev in Hdrop.
  split; [reflexivity|]. split; [exact Hrun|]. split; [exact Hev | exact Hdrop].
Defined.

(** C6 as stated fails: with capacity 2, after 2+1 completions the history
    holds the two most recent completions, not exactly the k = 1 most
    recent one. *)
Lemma history_holds_more_than_k :
  ∃ self0 evs self,
    __init__ 2 = Some self0 ∧ run three_then_gone self0 = Some (evs, self) ∧
    length (appended evs) = 2 + 1 ∧
    length (_completed self) = 2 ∧
    ¬ (∀ r, r ∈ _completed self ↔ r ∈ drop (length (appended evs) - 1) (appended evs)).
Proof.
  eexists _, _, _. split; [reflexivity|]. split; [reflexivity|].
  split; [reflexivity|]. split; [reflexivity|].
  intros Hall. specialize (Hall 1). simpl in Hall.
  assert (1 ∈ [2]) as Hin by (apply Hall; left).
  apply list_elem_of_singleton in Hin. discriminate Hin.
Qed.

(** ** Lookups *)

Lemma find_completed_none heap d p :
  (∀ r, r ∈ d → ∃ record, heap !! r = Some record ∧ pid record ≠ p) →
  find_completed heap d p = Some None.
Proof.
  induction d as [|r d IH]; intros Hd; simpl; [done|].
  destruct (Hd r) as (record & -> & Hne); [left|]. simpl.
  rewrite decide_False by done. apply IH. intros r' ?. apply Hd. by right.
Qed.

Lemma find_completed_first heap h1 r h2 record p :
  (∀ r', r' ∈ h1 → ∃ record', heap !! r' = Some record' ∧ pid record' ≠ p) →
  heap !! r = Some record → pid record = p →
  find_completed heap (h1 ++ r :: h2) p = Some (Some record).
Proof.
  intros Hh1 Hr Hp. induction h1 as [|r' h1 IH]; simpl.
  - rewrite Hr. simpl. by rewrite decide_True.
  - destruct (Hh1 r') as (record' & -> & Hne); [left|]. simpl.
    rewrite decide_False by done. apply IH. intros r0 ?. apply Hh1. by right.
Qed.

Lemma find_completed_total heap d p :
  (∀ r, r ∈ d → is_Some (heap !! r)) →
  ∃ res, find_completed heap d p = Some res ∧
         ∀ record, res = Some record →
           ∃ r, r ∈ d ∧ heap !! r = Some record ∧ pid record = p.
Proof.
  induction d as [|r d IH]; intros Hd; simpl.
  - by exists None.
  - destruct (Hd r) as [record Hr]; [left|]. rewrite Hr. simpl.
    case_decide as Hp.
    + exists (Some record). split; [done|]. intros ? [= <-].
      exists r. split; [left | done].
    + destruct IH as (res & -> & Hres); [intros r' ?; apply Hd; by right|].
      exists res. split; [done|]. intros rec' Heq.
      destruct (Hres _ Heq) as (r' & ? & ?). exists r'. split; [by right | done].
Qed.

Lemma exec_pids c self ev self' :
  wf self → exec c self = Some (ev, self') →
  pid <$> objs self' = pid <$> objs self ∨
  pid <$> objs self' = (pid <$> objs self) ++ observed_pids [c].
Proof.
  intros Hwf Hex. destruct c as [p nm ct pred now|l psutil now]; simpl in Hex.
  - unfold update_running in Hex.
    destruct (dict_get (_active self) p) as [r|]; simplify_eq/=;
      [|right; by rewrite fmap_app].
    destruct (objs self !! r) as [record|] eqn:Hrec; simplify_eq/=.
    destruct (py_gt _ _); simplify_eq/=; [right; by rewrite fmap_app|].
    left. rewrite list_fmap_insert. simpl. apply list_insert_id.
    by rewrite list_lookup_fmap, Hrec.
  - left.
    destruct (mark_missing_spec l psutil now self Hwf)
      as (? & ? & ? & _ & _ & _ & _ & _ & Ho). simplify_eq.
    apply list_eq. intros i. rewrite !list_lookup_fmap, Ho.
    case_decide; [|done]. by destruct (objs self !! i).
Qed.

Lemma run_pids cs : ∀ self evs self' q,
  wf self → run cs self = Some (evs, self') →
  q ∈ pid <$> objs self' → q ∈ pid <$> objs self ∨ q ∈ observed_pids cs.
Proof.
  induction cs as [|c cs IH]; intros self evs self' q Hwf Hrun Hq; simpl in Hrun.
  - simplify_eq. by left.
  - destruct (wf_exec c self Hwf) as (ev & self1 & Hex & Hwf1).
    rewrite Hex in Hrun. simpl in Hrun.
    destruct (run cs self1) as [[evs1 self2]|] eqn:Hrun1; simplify_eq/=.
    destruct (IH _ _ _ q Hwf1 Hrun1 Hq) as [Hq1|Hq1].
    + destruct (exec_pids _ _ _ _ Hwf Hex) as [Heq|Heq]; rewrite Heq in Hq1;
        [by left|].
      apply elem_of_app in Hq1 as [?|Hq1]; [by left|]. right.
      destruct c; simpl in *; [|by apply elem_of_nil in Hq1].
      apply list_elem_of_singleton in Hq1 as ->. left.
    + right. destruct c; simpl; [by right | done].
Qed.

(** A pid no object carries is in neither the dict nor the history. *)
Lemma lookups_unknown self p clock :
  wf self → p ∉ pid <$> objs self →
  current_elapsed p clock self = Some (None, self) ∧
  status_for p self = Some ("unknown", self).
Proof.
  intros Hwf Hp.
  assert (dict_get (_active self) p = None) as Hget.
  { destruct (dict_get (_active self) p) as [r|] eqn:Hget; [|done].
    destruct (wf_active_get _ _ _ Hwf Hget) as (record & Hrec & Hpid & _).
    exfalso. apply Hp, list_elem_of_fmap. exists record. split; [done|].
    by eapply list_elem_of_lookup_2. }
  assert (find_completed (objs self) (_completed self) p = Some None) as Hfind.
  { apply find_completed_none. intros r Hr.
    destruct (wf_completed _ Hwf _ Hr) as (record & Hrec & _).
    exists record. split; [done|]. intros Hpid. apply Hp, list_elem_of_fmap.
    exists record. split; [done|]. by eapply list_elem_of_lookup_2. }
  unfold current_elapsed, status_for. by rewrite Hget, Hfind.
Qed.

Lemma lookups_total self p clock :
  wf self →
  (∃ s, status_for p self = Some (s, self) ∧
        (s = "running" ∨ s = "completed" ∨ s = "unknown")) ∧
  (∃ e, current_elapsed p clock self = Some (e, self)).
Proof.
  intros Hwf. unfold status_for, current_elapsed.
  destruct (dict_get (_active self) p) as [r|] eqn:Hget.
  - destruct (wf_active_get _ _ _ Hwf Hget) as (record & -> & _ & Hnone & _).
    simpl. split; [|by eexists]. eexists. split; [done|].
    unfold status. rewrite Hnone. by left.
  - destruct (find_completed_total (objs self) (_completed self) p)
      as (res & -> & _).
    { intros r Hr. destruct (wf_completed _ Hwf _ Hr) as (? & ? & _). by eexists. }
    simpl. destruct res as [record|]; (split; [|by eexists]).
    + eexists. split; [done|]. unfold status.
      destruct (actual_duration record); auto.
    + eexists. split; [done|]. auto.
Qed.

(** C9. For a pid that no [update_running] call ever registered,
    [current_elapsed] returns None and [status_for] returns "unknown".
    [status_for] always returns one of "running", "completed", "unknown";
    both lookups always return and leave the tracker as it was. *)
Theorem lookups_of_untracked_pid n self0 cs evs self p clock :
  __init__ n = Some self0 →
  run cs self0 = Some (evs, self) →
  (p ∉ observed_pids cs →
     current_elapsed p clock self = Some (None, self) ∧
     status_for p self = Some ("unknown", self)) ∧
  (∃ s, status_for p self = Some (s, self) ∧
        (s = "running" ∨ s = "completed" ∨ s = "unknown")) ∧
  (∃ e, current_elapsed p clock self = Some (e, self)).
Proof.
  intros Hinit Hrun. pose proof (wf_init _ _ Hinit) as Hwf0.
  destruct (run_total cs self0 Hwf0) as (? & ? & ? & Hwf). simplify_eq.
  split; [|by apply lookups_total].
  intros Hp. apply lookups_unknown; [done|]. intros Hq.
  destruct (run_pids _ _ _ _ _ Hwf0 Hrun Hq) as [Hq0|Hq0]; [|done].
  unfold __init__ in Hinit. case_decide; simplify_eq/=. by apply elem_of_nil in Hq0.
Qed.

Lemma lookups_of_untracked_pid_witness :
  ∃ self0,
    __init__ default_completed_max = Some self0 ∧
    run [build99] self0 = Some ([], tracker99) ∧
    current_elapsed 7 1004%Q tracker99 = Some (None, tracker99) ∧
    status_for 7 tracker99 = Some ("unknown", tracker99).
Proof.
  eexists. split; [reflexivity|]. split; [reflexivity|].
  refine (proj1 (lookups_of_untracked_pid default_completed_max _ [build99] []
                   tracker99 7 1004%Q eq_refl eq_refl) _).
  intros Hin%list_elem_of_singleton. discriminate Hin.
Defined.

Lemma reachable_rerun99 : reachable rerun99.
Proof.
  exists default_completed_max,
    [build99; MarkMissing [] (λ _, NoSuchProcess) 1010%Q; again99],
    [Probed 99; Appended 0].
  reflexivity.
Qed.

Lemma reachable_twice99 : reachable twice99.
Proof.
  exists default_completed_max,
    [build99; MarkMissing [] (λ _, NoSuchProcess) 1010%Q;
     again99; MarkMissing [] (λ _, NoSuchProcess) 2030%Q],
    [Probed 99; Appended 0; Probed 99; Appended 1].
  reflexivity.
Qed.

(** C10. Both lookups consult [_active] first: a pid with an active record
    reports "running" and the running elapsed time whatever the history
    holds for that pid. For a pid with no active record they return the
    first record of that pid in [_completed], read from the oldest end,
    whatever follows it. *)
Theorem lookup_order self p clock :
  reachable self →
  (∀ r record,
     dict_get (_active self) p = Some r → objs self !! r = Some record →
     status_for p self = Some ("running", self) ∧
     current_elapsed p clock self
       = Some (Some (py_max (clock - create_time record)%Q 0%Q), self)) ∧
  (∀ h1 r h2 record,
     dict_get (_active self) p = None →
     _completed self = h1 ++ r :: h2 →
     objs self !! r = Some record → pid record = p →
     (∀ r' record', r' ∈ h1 → objs self !! r' = Some record' → pid record' ≠ p) →
     status_for p self = Some ("completed", self) ∧
     current_elapsed p clock self = Some (actual_duration record, self)).
Proof.
  intros Hwf%reachable_wf. split.
  - intros r record Hget Hrec.
    destruct (wf_active_get _ _ _ Hwf Hget) as (? & ? & _ & Hnone & _).
    simplify_eq.
    unfold status_for, current_elapsed. rewrite Hget, Hrec. simpl.
    unfold status, elapsed. by rewrite Hnone.
  - intros h1 r h2 record Hget Hc Hrec Hpid Hh1.
    assert (find_completed (objs self) (_completed self) p = Some (Some record))
      as Hfind.
    { rewrite Hc. apply find_completed_first; [|done|done].
      intros r' Hr'.
      destruct (wf_completed _ Hwf r') as (record' & Hrec' & _).
      { rewrite Hc. apply elem_of_app. by left. }
      exists record'. split; [done|]. by eapply Hh1. }
    destruct (wf_completed _ Hwf r) as (? & ? & [d Hd] & _).
    { rewrite Hc. apply elem_of_app. right. left. }
    simplify_eq.
    unfold status_for, current_elapsed. rewrite Hget, Hfind. simpl.
    unfold status. by rewrite Hd.
Qed.

Lemma lookup_order_witness :
  reachable rerun99 ∧ reachable twice99 ∧
  status_for 99 rerun99 = Some ("running", rerun99) ∧
  status_for 99 twice99 = Some ("completed", twice99) ∧
  current_elapsed 99 3000%Q twice99 = Some (Some (1010 - 1000)%Q, twice99).
Proof.
  split; [apply reachable_rerun99|]. split; [apply reachable_twice99|].
  split.
  - refine (proj1 (proj1 (lookup_order rerun99 99 3000%Q reachable_rerun99)
                     1 reused99 eq_refl eq_refl)).
  - refine (proj2 (lookup_order twice99 99 3000%Q reachable_twice99)
              [] 0 [1] closed99 eq_refl eq_refl eq_refl eq_refl _).
    intros r' record' Hin. by apply elem_of_nil in Hin.
Defined.

(** ** Further properties of the tracker *)

Lemma py_max_nonneg x : (0 <= py_max x 0)%Q.
Proof.
  unfold py_max, py_gt. destruct (Qle_bool 0 x) eqn:Hle; simpl.
  - by apply Qle_bool_iff.
  - apply Qle_refl.
Qed.

Lemma py_gt_abs_same ct : py_gt (py_abs (ct - ct)%Q) 1%Q = false.
Proof.
  unfold py_gt, py_abs. apply negb_false_iff, Qle_bool_iff.
  assert (Qabs (ct - ct) == 0)%Q as ->.
  { rewrite (Qabs_wd (ct - ct) 0); [reflexivity|]. apply Qplus_opp_r. }
  discriminate.
Qed.

(** X1. The invariants of a reachable tracker. At most one active record per
    pid; an active record carries the pid it is filed under and is
    running; a record in the history is completed; no record is both
    active and in the history, or twice in the history; the history is
    within its bound. *)
Theorem reachable_invariant self :
  reachable self →
  NoDup (dict_keys (_active self)) ∧
  (∀ p r, dict_get (_active self) p = Some r →
     ∃ record, objs self !! r = Some record ∧ pid record = p ∧
               status record = "running") ∧
  (∀ r, r ∈ _completed self →
     ∃ record, objs self !! r = Some record ∧ status record = "completed") ∧
  NoDup (_completed self) ∧
  (∀ r, r ∈ (_active self).*2 → r ∉ _completed self) ∧
  length (_completed self) ≤ completed_max self.
Proof.
  intros Hwf%reachable_wf.
  pose proof (wf_refs _ Hwf) as Hnd. apply NoDup_app in Hnd as (_ & Hdisj & Hndc).
  split_and!; [apply Hwf | | | done | done | apply Hwf].
  - intros p r Hget.
    destruct (wf_active_get _ _ _ Hwf Hget) as (record & ? & ? & Hnone & _).
    exists record. unfold status. by rewrite Hnone.
  - intros r Hr.
    destruct (wf_completed _ Hwf _ Hr) as (record & ? & [d Hd] & _).
    exists record. unfold status. by rewrite Hd.
Qed.

Lemma reachable_invariant_witness :
  reachable rerun99 ∧
  NoDup (dict_keys (_active rerun99)) ∧ length (_completed rerun99) ≤ 20.
Proof.
  split; [apply reachable_rerun99|].
  destruct (reachable_invariant rerun99 reachable_rerun99)
    as (Hkeys & _ & _ & _ & _ & Hlen).
  split; [exact Hkeys | exact Hlen].
Defined.

Lemma exec_duration c self ev self' :
  wf self →
  (∀ r record, objs self !! r = Some record → duration_ok record) →
  exec c self = Some (ev, self') →
  ∀ r record, objs self' !! r = Some record → duration_ok record.
Proof.
  intros Hwf Hok Hex r record Hr.
  destruct c as [p nm ct pred now|l psutil now]; simpl in Hex.
  - unfold update_running in Hex.
    assert (∀ s, s = (_replace_record p nm ct pred now self).2 →
              objs s !! r = Some record → duration_ok record) as Hnew.
    { intros s ->. simpl. intros [?|[_ Hlast]]%lookup_app_Some; [by eapply Hok|].
      destruct (r - length (objs self)); simplify_eq/=. by intros d ?. }
    destruct (dict_get (_active self) p) as [r0|]; simplify_eq/=;
      [|by eapply (Hnew _ eq_refl)].
    destruct (objs self !! r0) as [rec0|] eqn:Hr0; simplify_eq/=.
    destruct (py_gt _ _); simplify_eq/=; [by eapply (Hnew _ eq_refl)|].
    destruct (decide (r0 = r)) as [->|Hne].
    + rewrite list_lookup_insert_eq in Hr by by eapply lookup_lt_Some.
      simplify_eq. by apply (Hok _ _ Hr0).
    + rewrite list_lookup_insert_ne in Hr by done. by eapply Hok.
  - destruct (mark_missing_spec l psutil now self Hwf)
      as (? & ? & ? & _ & _ & _ & _ & _ & Ho). simplify_eq.
    rewrite Ho in Hr. case_decide; [|by eapply Hok].
    destruct (objs self !! r) as [rec0|]; simplify_eq/=.
    intros d [= <-]. by exists now.
Qed.

Lemma run_duration cs : ∀ self evs self',
  wf self →
  (∀ r record, objs self !! r = Some record → duration_ok record) →
  run cs self = Some (evs, self') →
  ∀ r record, objs self' !! r = Some record → duration_ok record.
Proof.
  induction cs as [|c cs IH]; intros self evs self' Hwf Hok Hrun; simpl in Hrun.
  - by simplify_eq.
  - destruct (wf_exec c self Hwf) as (ev & self1 & Hex & Hwf1).
    rewrite Hex in Hrun. simpl in Hrun.
    destruct (run cs self1) as [[evs1 self2]|] eqn:Hrun1; simplify_eq/=.
    eapply IH; [exact Hwf1 | | exact Hrun1].
    exact (exec_duration c self ev self1 Hwf Hok Hex).
Qed.

Lemma reachable_duration self r record :
  reachable self → objs self !! r = Some record → duration_ok record.
Proof.
  intros (n & cs & evs & Hrun) Hr.
  destruct (__init__ n) as [self0|] eqn:Hinit; simplify_eq/=.
  assert (∀ r' rec', objs self0 !! r' = Some rec' → duration_ok rec') as Hok0.
  { intros r' rec' Hr'. unfold __init__ in Hinit. by case_decide; simplify_eq/=. }
  exact (run_duration cs self0 evs self (wf_init _ _ Hinit) Hok0 Hrun r record Hr).
Qed.

(** X2. Every duration a reachable tracker holds was computed at completion
    as max(completed_at - create_time, 0), and is not negative. *)
Theorem recorded_duration self r record d :
  reachable self →
  objs self !! r = Some record →
  actual_duration record = Some d →
  ∃ t, completed_at record = Some t ∧
       d = py_max (t - create_time record)%Q 0%Q ∧ (0 <= d)%Q.
Proof.
  intros Hreach Hr Hd.
  destruct (reachable_duration _ _ _ Hreach Hr d Hd) as (t & Ht & ->).
  exists t. split_and!; [done | done | apply py_max_nonneg].
Qed.

Lemma recorded_duration_witness :
  reachable done99 ∧
  ∃ t, completed_at closed99 = Some t ∧ (0 <= 1010 - 1000)%Q.
Proof.
  split; [apply reachable_done99|].
  destruct (recorded_duration done99 0 closed99 (1010 - 1000)%Q
              reachable_done99 eq_refl eq_refl) as (t & Ht & _ & Hpos).
  exists t. split; [exact Ht | exact Hpos].
Defined.

(** What the two lookups return on a reachable tracker, by cases. *)
Lemma lookups_cases self p clock :
  wf self →
  (∃ r record, dict_get (_active self) p = Some r ∧ objs self !! r = Some record ∧
     actual_duration record = None ∧
     current_elapsed p clock self
       = Some (Some (py_max (clock - create_time record)%Q 0%Q), self) ∧
     status_for p self = Some ("running", self)) ∨
  (∃ r record d, dict_get (_active self) p = None ∧ r ∈ _completed self ∧
     objs self !! r = Some record ∧ pid record = p ∧
     actual_duration record = Some d ∧
     current_elapsed p clock self = Some (Some d, self) ∧
     status_for p self = Some ("completed", self)) ∨
  (dict_get (_active self) p = None ∧
   current_elapsed p clock self = Some (None, self) ∧
   status_for p self = Some ("unknown", self)).
Proof.
  intros Hwf. unfold current_elapsed, status_for.
  destruct (dict_get (_active self) p) as [r|] eqn:Hget.
  - left. destruct (wf_active_get _ _ _ Hwf Hget) as (record & Hrec & _ & Hnone & _).
    exists r, record. rewrite Hrec. simpl. unfold elapsed, status. rewrite Hnone.
    by split_and!.
  - right.
    destruct (find_completed_total (objs self) (_completed self) p)
      as (res & -> & Hres).
    { intros r Hr. destruct (wf_completed _ Hwf _ Hr) as (? & ? & _). by eexists. }
    simpl. destruct res as [record|]; [left | by right].
    destruct (Hres record eq_refl) as (r & Hin & Hrec & Hpid).
    destruct (wf_completed _ Hwf _ Hin) as (? & ? & [d Hd] & _). simplify_eq.
    exists r, record, d. unfold status. rewrite Hd. by split_and!.
Qed.

(** X3. [current_elapsed] never returns a negative number. *)
Theorem current_elapsed_nonneg self p clock :
  reachable self →
  ∃ res, current_elapsed p clock self = Some (res, self) ∧
         ∀ e, res = Some e → (0 <= e)%Q.
Proof.
  intros Hreach. pose proof (reachable_wf _ Hreach) as Hwf.
  destruct (lookups_cases self p clock Hwf)
    as [(r & record & _ & _ & _ & -> & _)
       |[(r & record & d & _ & _ & Hrec & _ & Hd & -> & _)|(_ & -> & _)]].
  - eexists. split; [done|]. intros e [= <-]. apply py_max_nonneg.
  - eexists. split; [done|]. intros e [= <-].
    destruct (reachable_duration _ _ _ Hreach Hrec d Hd) as (t & _ & ->).
    apply py_max_nonneg.
  - eexists. split; [done|]. by intros e.
Qed.

Lemma current_elapsed_nonneg_witness :
  reachable tracker99 ∧
  ∃ res, current_elapsed 99 900%Q tracker99 = Some (res, tracker99) ∧
         ∀ e, res = Some e → (0 <= e)%Q.
Proof.
  split; [apply reachable_tracker99|].
  exact (current_elapsed_nonneg tracker99 99 900%Q reachable_tracker99).
Defined.

(** X4. The two lookups agree: [current_elapsed] returns None exactly when
    [status_for] returns "unknown". *)
Theorem lookups_agree self p clock :
  reachable self →
  (current_elapsed p clock self = Some (None, self) ↔
   status_for p self = Some ("unknown", self)).
Proof.
  intros Hwf%reachable_wf.
  destruct (lookups_cases self p clock Hwf)
    as [(r & record & _ & _ & _ & -> & ->)
       |[(r & record & d & _ & _ & _ & _ & _ & -> & ->)|(_ & -> & ->)]];
    split; intros ?; by simplify_eq.
Qed.

Lemma lookups_agree_witness :
  reachable tracker99 ∧ status_for 7 tracker99 = Some ("unknown", tracker99).
Proof.
  split; [apply reachable_tracker99|].
  apply (proj1 (lookups_agree tracker99 7 0%Q reachable_tracker99)).
  reflexivity.
Defined.

Lemma find_completed_ext heap heap' d p :
  (∀ r, r ∈ d → heap' !! r = heap !! r) →
  find_completed heap' d p = find_completed heap d p.
Proof.
  induction d as [|r d IH]; intros Hd; simpl; [done|].
  rewrite (Hd r) by left. destruct (heap !! r) as [record|]; simpl; [|done].
  case_decide; [done|]. apply IH. intros r' ?. apply Hd. by right.
Qed.

(** One call of [update_running], in full. *)
Lemma update_running_spec p nm ct pred now self :
  wf self →
  ∃ r self' record,
    update_running p nm ct pred now self = Some (r, self') ∧ wf self' ∧
    dict_get (_active self') p = Some r ∧ objs self' !! r = Some record ∧
    pid record = p ∧ name record = nm ∧ predicted record = pred ∧
    last_seen record = now ∧ actual_duration record = None ∧
    py_gt (py_abs (create_time record - ct)%Q) 1%Q = false ∧
    _completed self' = _completed self ∧
    completed_max self' = completed_max self ∧
    (r ∉ _completed self) ∧
    (∀ q, q ≠ p → dict_get (_active self') q = dict_get (_active self) q) ∧
    (∀ q rq, q ≠ p → dict_get (_active self) q = Some rq → rq ≠ r) ∧
    (∀ r', r' ≠ r → r' < length (objs self) → objs self' !! r' = objs self !! r').
Proof.
  intros Hwf.
  destruct (wf_update_running p nm ct pred now self Hwf) as (r & self' & Hrun & Hwf').
  exists r, self'.
  assert (∀ x, x ∈ (_active self).*2 ++ _completed self → x < length (objs self))
    as Hlt.
  { intros x [Hx|Hx]%elem_of_app.
    - apply list_elem_of_fmap in Hx as ([p' r'] & -> & Hin).
      destruct (wf_active _ Hwf _ _ Hin) as (? & ? & _). by eapply lookup_lt_Some.
    - destruct (wf_completed _ Hwf _ Hx) as (? & ? & _). by eapply lookup_lt_Some. }
  assert (∀ s, (length (objs self), s) = _replace_record p nm ct pred now self →
    (r, self') = (length (objs self), s) →
    ∃ record,
      update_running p nm ct pred now self = Some (r, self') ∧ wf self' ∧
      dict_get (_active self') p = Some r ∧ objs self' !! r = Some record ∧
      pid record = p ∧ name record = nm ∧ predicted record = pred ∧
      last_seen record = now ∧ actual_duration record = None ∧
      py_gt (py_abs (create_time record - ct)%Q) 1%Q = false ∧
      _completed self' = _completed self ∧
      completed_max self' = completed_max self ∧
      (r ∉ _completed self) ∧
      (∀ q, q ≠ p → dict_get (_active self') q = dict_get (_active self) q) ∧
      (∀ q rq, q ≠ p → dict_get (_active self) q = Some rq → rq ≠ r) ∧
      (∀ r', r' ≠ r → r' < length (objs self) → objs self' !! r' = objs self !! r'))
    as Hnew.
  { intros s [= ->] [= -> ->].
    exists {| pid := p; name := nm; create_time := ct; predicted := pred;
              first_seen := now; last_seen := now;
              actual_duration := None; completed_at := None |}.
    split_and!.
    - done.
    - done.
    - simpl. rewrite dict_get_set. by rewrite decide_True.
    - simpl. rewrite lookup_app_r by done. by rewrite Nat.sub_diag.
    - done.
    - done.
    - done.
    - done.
    - done.
    - apply py_gt_abs_same.
    - done.
    - done.
    - intros Hin. assert (length (objs self) < length (objs self)); [|lia].
      apply Hlt, elem_of_app. by right.
    - intros q Hne. simpl. rewrite dict_get_set. by rewrite decide_False.
    - intros q rq _ Hget ->. assert (length (objs self) < length (objs self)); [|lia].
      apply Hlt, elem_of_app. left. apply list_elem_of_fmap.
      exists (q, length (objs self)). split; [done|]. by apply dict_get_Some_elem.
    - intros r' _ Hr'. simpl. by rewrite lookup_app_l. }
  pose proof Hrun as Hrun0. unfold update_running in Hrun0.
  destruct (dict_get (_active self) p) as [r0|] eqn:Hget;
    [|assert (_replace_record p nm ct pred now self = (r, self')) as Heq
       by congruence;
     exact (Hnew _ eq_refl (eq_sym Heq))].
  destruct (wf_active_get _ _ _ Hwf Hget) as (rec0 & Hrec0 & Hpid0 & Hnone0 & _).
  rewrite Hrec0 in Hrun0. cbv beta iota delta [mbind option_bind] in Hrun0.
  destruct (py_gt (py_abs (create_time rec0 - ct)%Q) 1%Q) eqn:Hfar;
    [assert (_replace_record p nm ct pred now self = (r, self')) as Heq
       by congruence;
     exact (Hnew _ eq_refl (eq_sym Heq))|].
  simplify_eq.
  assert (r < length (objs self)) as Hr by by eapply lookup_lt_Some.
  exists (touch nm pred now rec0). split_and!.
  - done.
  - done.
  - done.
  - by apply list_lookup_insert_eq.
  - done.
  - done.
  - done.
  - done.
  - done.
  - done.
  - done.
  - done.
  - pose proof (wf_refs _ Hwf) as Hnd.
    apply NoDup_app in Hnd as (_ & Hdisj & _). apply Hdisj.
    apply list_elem_of_fmap. exists (pid rec0, r). split; [done|].
    by apply dict_get_Some_elem.
  - done.
  - intros q rq Hne Hgetq ->.
    destruct (wf_active_get _ _ _ Hwf Hgetq) as (? & ? & ? & _). by simplify_eq.
  - intros r' Hne _. simpl. by rewrite list_lookup_insert_ne.
Qed.

(** X5. After [update_running(pid, ...)], whichever branch it took, the pid has
    an active record, which is the one returned: it carries the given name
    and prediction, was last seen at this call, and has a create_time
    within 1.0 of the given one; the lookups report it as "running" with
    elapsed time max(clock - create_time, 0). *)
Theorem update_running_then_lookup self p nm ct pred now clock :
  reachable self →
  ∃ r self' record,
    update_running p nm ct pred now self = Some (r, self') ∧
    dict_get (_active self') p = Some r ∧ objs self' !! r = Some record ∧
    pid record = p ∧ name record = nm ∧ predicted record = pred ∧
    last_seen record = now ∧
    py_gt (py_abs (create_time record - ct)%Q) 1%Q = false ∧
    status_for p self' = Some ("running", self') ∧
    current_elapsed p clock self'
      = Some (Some (py_max (clock - create_time record)%Q 0%Q), self').
Proof.
  intros Hwf%reachable_wf.
  destruct (update_running_spec p nm ct pred now self Hwf)
    as (r & self' & record & Hrun & Hwf' & Hget & Hrec & Hpid & Hnm & Hpred & Hls
        & Hnone & Hnear & _).
  exists r, self', record. split_and!; try done.
  - rewrite (status_for_active _ _ _ _ Hget Hrec). unfold status. by rewrite Hnone.
  - unfold current_elapsed. rewrite Hget, Hrec. simpl.
    unfold elapsed. by rewrite Hnone.
Qed.

Lemma update_running_then_lookup_witness :
  reachable done99 ∧
  ∃ r self',
    update_running 99 "build" 2000%Q 3%Q 2001%Q done99 = Some (r, self') ∧
    status_for 99 self' = Some ("running", self').
Proof.
  split; [apply reachable_done99|].
  destruct (update_running_then_lookup done99 99 "build" 2000%Q 3%Q 2001%Q 0%Q
              reachable_done99) as (r & self' & record & Hrun & _ & _ & _ & _ & _
                                    & _ & _ & Hst & _).
  exists r, self'. split; [exact Hrun | exact Hst].
Defined.

(** X6. [_runtime_metadata] of main.py. Without a create_time it answers
    (None, "unknown") and leaves the tracker alone. With one it answers
    "running" with an elapsed time that is not negative, never "completed"
    or "unknown", and the tracker is the one [update_running] leaves. *)
Theorem runtime_metadata_running self p nm ct pred now clock :
  reachable self →
  _runtime_metadata p nm None pred now clock self
    = Some ((None, "unknown"), self) ∧
  ∃ r self' e,
    update_running p nm ct pred now self = Some (r, self') ∧
    _runtime_metadata p nm (Some ct) pred now clock self
      = Some ((Some e, "running"), self') ∧
    (0 <= e)%Q.
Proof.
  intros Hwf%reachable_wf. split; [done|].
  destruct (update_running_spec p nm ct pred now self Hwf)
    as (r & self' & record & Hrun & _ & Hget & Hrec & _ & _ & _ & _ & Hnone & _).
  exists r, self', (py_max (clock - create_time record)%Q 0%Q).
  split; [done|]. split; [|apply py_max_nonneg].
  unfold _runtime_metadata, current_elapsed. rewrite Hrun. simpl.
  rewrite Hget, Hrec. simpl.
  rewrite (status_for_active _ _ _ _ Hget Hrec). simpl.
  unfold elapsed, status. by rewrite Hnone.
Qed.

Lemma runtime_metadata_running_witness :
  reachable done99 ∧
  ∃ self' e,
    _runtime_metadata 99 "build" (Some 2000%Q) 3%Q 2001%Q 2002%Q done99
      = Some ((Some e, "running"), self').
Proof.
  split; [apply reachable_done99|].
  destruct (runtime_metadata_running done99 99 "build" 2000%Q 3%Q 2001%Q 2002%Q
              reachable_done99) as (_ & r & self' & e & _ & Hmeta & _).
  exists self', e. exact Hmeta.
Defined.

(** X7. [update_running(pid, ...)] leaves every other pid alone: its dict entry,
    its records, the history and the deque bound are as before, and both
    lookups answer for it as they did. *)
Theorem update_running_frame self p nm ct pred now q clock :
  reachable self → q ≠ p →
  ∃ r self',
    update_running p nm ct pred now self = Some (r, self') ∧
    dict_get (_active self') q = dict_get (_active self) q ∧
    _completed self' = _completed self ∧
    completed_max self' = completed_max self ∧
    (∀ r', r' ≠ r → r' < length (objs self) → objs self' !! r' = objs self !! r') ∧
    fst <$> status_for q self' = fst <$> status_for q self ∧
    fst <$> current_elapsed q clock self' = fst <$> current_elapsed q clock self.
Proof.
  intros Hwf%reachable_wf Hne.
  destruct (update_running_spec p nm ct pred now self Hwf)
    as (r & self' & record & Hrun & _ & _ & _ & _ & _ & _ & _ & _ & _ & Hc & Hm
        & Hrc & Hget & Hrq & Ho).
  exists r, self'. split_and!; [done | by apply Hget | done | done | done | |].
  - unfold status_for. rewrite (Hget q Hne), Hc.
    destruct (dict_get (_active self) q) as [rq|] eqn:Hq.
    + destruct (wf_active_get _ _ _ Hwf Hq) as (recq & Hrecq & _).
      rewrite Ho, Hrecq; [done | by eapply Hrq | by eapply lookup_lt_Some].
    + rewrite (find_completed_ext (objs self)); [by destruct (find_completed _ _ _) as [[?|]|]|].
      intros r' Hr'. apply Ho; [by intros -> |].
      destruct (wf_completed _ Hwf _ Hr') as (? & ? & _). by eapply lookup_lt_Some.
  - unfold current_elapsed. rewrite (Hget q Hne), Hc.
    destruct (dict_get (_active self) q) as [rq|] eqn:Hq.
    + destruct (wf_active_get _ _ _ Hwf Hq) as (recq & Hrecq & _).
      rewrite Ho, Hrecq; [done | by eapply Hrq | by eapply lookup_lt_Some].
    + rewrite (find_completed_ext (objs self)); [by destruct (find_completed _ _ _) as [[?|]|]|].
      intros r' Hr'. apply Ho; [by intros -> |].
      destruct (wf_completed _ Hwf _ Hr') as (? & ? & _). by eapply lookup_lt_Some.
Qed.

Lemma update_running_frame_witness :
  reachable tracker99 ∧ 99%Z ≠ 7%Z ∧
  ∃ r self',
    update_running 7 "sh" 500%Q 2%Q 1004%Q tracker99 = Some (r, self') ∧
    dict_get (_active self') 99 = Some 0.
Proof.
  split; [apply reachable_tracker99|]. split; [discriminate|].
  destruct (update_running_frame tracker99 7 "sh" 500%Q 2%Q 1004%Q 99 0%Q
              reachable_tracker99) as (r & self' & Hrun & Hget & _);
    [discriminate|].
  exists r, self'. split; [exact Hrun | exact Hget].
Defined.

Lemma mark_loop_all_listed (S : gset Z) psutil now pids self :
  (∀ p, p ∈ pids → p ∈ S) → mark_loop S psutil now pids self = Some ([], self).
Proof.
  induction pids as [|p pids IH]; intros Hall; simpl; [done|].
  unfold mark_one. rewrite decide_True by (apply Hall; left). simpl.
  rewrite IH; [done|]. intros q ?. apply Hall. by right.
Qed.

(** X8. [mark_missing] is a no-op when every active pid is in its list, in
    particular on a tracker with nothing active: the tracker is returned as
    it was, psutil is not asked anything, nothing is appended. *)
Theorem mark_missing_all_listed self l psutil now :
  (∀ p, p ∈ dict_keys (_active self) → p ∈ l) →
  mark_missing l psutil now self = Some ([], self).
Proof.
  intros Hall. unfold mark_missing. apply mark_loop_all_listed.
  intros p Hp. apply elem_of_list_to_set. by apply Hall.
Qed.

Lemma mark_missing_all_listed_witness :
  (∀ p, p ∈ dict_keys (_active tracker99) → p ∈ [5%Z; 99%Z]) ∧
  mark_missing [5%Z; 99%Z] (λ _, NoSuchProcess) 1010%Q tracker99
    = Some ([], tracker99).
Proof.
  assert (∀ p, p ∈ dict_keys (_active tracker99) → p ∈ [5%Z; 99%Z]) as Hall.
  { intros p Hp. apply list_elem_of_singleton in Hp. subst p. right. left. }
  split; [exact Hall|].
  exact (mark_missing_all_listed tracker99 [5%Z; 99%Z] (λ _, NoSuchProcess) 1010%Q Hall).
Defined.

Lemma doomed_keys_probed (S : gset Z) psutil h (d : list (Z * nat)) :
  (filter (λ kv, doomed S psutil h kv) d).*1
    `sublist_of` filter (λ k, k ∉ S) d.*1.
Proof.
  induction d as [|[k r] d IH]; csimpl; [done|].
  destruct (doomed S psutil h (k, r)) eqn:Hd.
  - rewrite filter_cons_True by (cbv beta; rewrite Hd; exact I).
    unfold doomed in Hd. simpl in Hd. apply andb_true_iff in Hd as [HS _].
    apply bool_decide_eq_true in HS.
    rewrite (filter_cons_True (λ k, k ∉ S)) by done. csimpl. by apply sublist_skip.
  - rewrite filter_cons_False by (cbv beta; rewrite Hd; simpl; tauto).
    destruct (decide (k ∉ S)).
    + rewrite (filter_cons_True (λ k, k ∉ S)) by done. by apply sublist_cons.
    + by rewrite (filter_cons_False (λ k, k ∉ S)) by done.
Qed.

(** X9. Within one [mark_missing] call, psutil is asked about exactly the
    active pids outside the list, in the order the dict holds them (the
    order in which the pids were registered). The entries that are closed
    are exactly those among them for which psutil reports [NoSuchProcess]
    or a creation time more than 1.0 away from the stored one; they leave
    the dict, the others stay in place, and the closed records enter the
    history in that same dict order: the new history is the old one
    followed by them, cut from the old end to the bound. *)
Theorem mark_missing_in_dict_order self l psutil now :
  reachable self →
  ∃ evs self' closed,
    mark_missing l psutil now self = Some (evs, self') ∧
    probed evs = filter (λ p, p ∉ l) (dict_keys (_active self)) ∧
    closed `sublist_of` _active self ∧
    (∀ p r, (p, r) ∈ _active self →
       ((p, r) ∈ closed ↔
        (p ∉ l) ∧
        ∃ record, objs self !! r = Some record ∧
          (psutil p = NoSuchProcess ∨
           ∃ t, psutil p = CreateTime t ∧
                py_gt (py_abs (t - create_time record)%Q) 1%Q = true))) ∧
    appended evs = closed.*2 ∧
    closed.*1 `sublist_of` probed evs ∧
    probed evs `sublist_of` dict_keys (_active self) ∧
    _active self' = filter (λ kv, kv ∉ closed) (_active self) ∧
    _completed self' =
      drop (length (_completed self ++ closed.*2) - completed_max self)
           (_completed self ++ closed.*2) ∧
    (length (_completed self) + length closed ≤ completed_max self →
     _completed self' = _completed self ++ closed.*2).
Proof.
  intros Hwf%reachable_wf.
  destruct (mark_missing_spec l psutil now self Hwf)
    as (evs & self' & Hrun & Hev & Hpr & Ha & _).
  pose proof (mark_missing_history _ _ _ _ _ _ Hwf Hrun) as Hhist.
  rewrite Hev in Hhist. unfold closing in Hev, Hhist.
  exists evs, self',
    (filter (λ kv, doomed (list_to_set l) psutil (objs self) kv) (_active self)).
  split_and!; [done | | apply sublist_filter | | done | | | | done |].
  - rewrite Hpr. apply list_filter_iff. intros p.
    by rewrite elem_of_list_to_set.
  - intros p r Hin. rewrite list_elem_of_filter.
    destruct (wf_active _ Hwf _ _ Hin) as (record & Hrec & _).
    rewrite (doomed_entry _ _ _ _ _ _ Hrec).
    rewrite andb_True, bool_decide_spec, elem_of_list_to_set, Is_true_true.
    rewrite verdict_true. split.
    + intros [[Hl Hv] _]. split; [done|]. by exists record.
    + intros (Hl & record' & Hrec' & Hv). by simplify_eq.
  - rewrite Hpr. apply doomed_keys_probed.
  - rewrite Hpr. apply sublist_filter.
  - rewrite Ha. apply filter_agree. intros kv Hin.
    rewrite list_elem_of_filter. tauto.
  - intros Hroom. rewrite Hhist. apply drop_nothing.
    by rewrite length_fmap.
Qed.

Lemma reachable_watching : reachable watching.
Proof. by exists default_completed_max, three_observed, []. Qed.

Lemma mark_missing_in_dict_order_witness :
  reachable watching ∧
  ∃ evs self',
    mark_missing [2%Z] (λ _, NoSuchProcess) 40%Q watching = Some (evs, self') ∧
    probed evs = [1%Z; 3%Z] ∧
    appended evs = [0; 2] ∧
    _completed self' = [0; 2].
Proof.
  split; [apply reachable_watching|].
  destruct (mark_missing_in_dict_order watching [2%Z] (λ _, NoSuchProcess) 40%Q
              reachable_watching)
    as (evs & self' & closed & Hrun & Hp & Hsub & _ & Happ & _ & _ & _ & _ & Hroom).
  assert (∃ st, mark_missing [2%Z] (λ _, NoSuchProcess) 40%Q watching
                = Some ([Probed 1%Z; Appended 0; Probed 3%Z; Appended 2], st))
    as [st Hc] by (eexists; reflexivity).
  assert (evs = [Probed 1%Z; Appended 0; Probed 3%Z; Appended 2]) as Hevs
    by congruence.
  exists evs, self'. split; [exact Hrun|].
  split; [rewrite Hp; reflexivity|].
  split; [rewrite Hevs; reflexivity|].
  rewrite Hroom.
  - rewrite <- Happ, Hevs. reflexivity.
  - apply sublist_length in Hsub. simpl in *. lia.
Defined.

(** X10. A tracker built with [completed_max = 0] never keeps a completion:
    after any calls its history is empty, so no pid is ever reported
    "completed"; a pid whose record was closed is reported "unknown". *)
Theorem zero_capacity_keeps_nothing self0 cs evs self p :
  __init__ 0 = Some self0 →
  run cs self0 = Some (evs, self) →
  _completed self = [] ∧
  ∃ s, status_for p self = Some (s, self) ∧ (s = "running" ∨ s = "unknown").
Proof.
  intros Hinit Hrun. pose proof (wf_init _ _ Hinit) as Hwf0.
  destruct (run_total cs self0 Hwf0) as (? & ? & ? & Hwf). simplify_eq.
  destruct (run_history _ _ _ _ Hwf0 Hrun) as [Hc _].
  assert (_completed self = []) as Hnil.
  { rewrite Hc. unfold __init__ in Hinit. case_decide; simplify_eq/=.
    rewrite deque_extend_drop by (simpl; lia). simpl.
    apply drop_ge. lia. }
  split; [done|].
  destruct (lookups_cases self p 0%Q Hwf)
    as [(_ & _ & _ & _ & _ & _ & ->)
       |[(r & _ & _ & _ & Hin & _)|(_ & _ & ->)]].
  - eexists. split; [done | by left].
  - rewrite Hnil in Hin. by apply elem_of_nil in Hin.
  - eexists. split; [done | by right].
Qed.

Lemma zero_capacity_keeps_nothing_witness :
  ∃ self0 evs self,
    __init__ 0 = Some self0 ∧
    run [build99; MarkMissing [] (λ _, NoSuchProcess) 1010%Q] self0
      = Some (evs, self) ∧
    appended evs = [0] ∧ _completed self = [] ∧
    status_for 99 self = Some ("unknown", self).
Proof.
  eexists _, _, _. split; [reflexivity|].
  assert (∀ X Y : Prop, X → (X → Y) → X ∧ Y) as Hand by tauto.
  apply Hand; [reflexivity|]. intros Hrun.
  split; [reflexivity|].
  destruct (zero_capacity_keeps_nothing _ _ _ _ 99 eq_refl Hrun) as [Hnil _].
  split; [exact Hnil | reflexivity].
Defined.

Lemma run_observes obs : ∀ self,
  wf self →
  ∃ self',
    run (observe_calls obs) self = Some ([], self') ∧ wf self' ∧
    (∀ p, p ∈ obs.*1 ∨ is_Some (dict_get (_active self) p) →
          is_Some (dict_get (_active self') p)).
Proof.
  induction obs as [|[p [[[nm ct] pred] now]] obs IH]; intros self Hwf.
  - exists self. split_and!; [done | done |]. intros p [Hin|?]; [|done].
    by apply elem_of_nil in Hin.
  - destruct (update_running_spec p nm ct pred now self Hwf)
      as (r & self1 & record & Hrun & Hwf1 & Hget & _ & _ & _ & _ & _ & _ & _ & _ & _
          & _ & Hoth & _).
    destruct (IH self1 Hwf1) as (self' & Hrun' & Hwf' & Hact).
    exists self'. split_and!; [|done|].
    + unfold observe_calls in *. csimpl. rewrite Hrun. simpl. by rewrite Hrun'.
    + intros q Hq. apply Hact.
      destruct (decide (q = p)) as [->|Hne]; [right; by rewrite Hget|].
      destruct Hq as [Hq|Hq].
      * csimpl in Hq. apply elem_of_cons in Hq as [?|Hq]; [done | by left].
      * right. by rewrite (Hoth q Hne).
Qed.

(** X11. One polling cycle, as main.py drives the tracker: [update_running] for
    each process seen, then one [mark_missing] with a list that holds all
    their pids. None of the observed processes is closed by that
    [mark_missing]: each is still active and "running", psutil is not asked
    about any of them. *)
Theorem observe_then_mark_missing self obs l psutil now :
  reachable self →
  (∀ p, p ∈ obs.*1 → p ∈ l) →
  ∃ evs self',
    run (observe_calls obs ++ [MarkMissing l psutil now]) self = Some (evs, self') ∧
    ∀ p, p ∈ obs.*1 →
      status_for p self' = Some ("running", self') ∧
      (p ∉ probed evs) ∧
      ∃ r, dict_get (_active self') p = Some r ∧ (r ∉ appended evs) ∧
           (r ∉ _completed self').
Proof.
  intros Hwf%reachable_wf Hall.
  destruct (run_observes obs self Hwf) as (self1 & Hrun1 & Hwf1 & Hact).
  destruct (mark_missing_spec l psutil now self1 Hwf1)
    as (evs & self' & Hrun & _ & Hpr & _).
  exists evs, self'. split.
  { change evs with ([] ++ evs). eapply run_app; [exact Hrun1|].
    simpl. rewrite Hrun. simpl. by rewrite app_nil_r. }
  intros p Hp.
  destruct (Hact p) as [r Hget]; [by left|].
  destruct (wf_active_get _ _ _ Hwf1 Hget) as (record & Hrec & _ & Hnone & _).
  destruct (mark_missing_kept l psutil now self1 p r record)
    as (? & ? & ? & _ & Hget' & Hrec' & Hnapp & Hnc); try done.
  { left. by apply Hall. }
  simplify_eq. split_and!.
  - rewrite (status_for_active _ _ _ _ Hget' Hrec'). unfold status. by rewrite Hnone.
  - rewrite Hpr. intros [Hn _]%list_elem_of_filter. apply Hn.
    apply elem_of_list_to_set. by apply Hall.
  - by exists r.
Qed.

Lemma observe_then_mark_missing_witness :
  reachable done99 ∧
  ∃ evs self',
    run (observe_calls [(99%Z, ("build", 2000%Q, 3%Q, 2001%Q));
                        (7%Z, ("sh", 1500%Q, 1%Q, 2002%Q))]
         ++ [MarkMissing [7%Z; 99%Z] (λ _, NoSuchProcess) 2003%Q]) done99
      = Some (evs, self') ∧
    status_for 7 self' = Some ("running", self') ∧
    status_for 99 self' = Some ("running", self').
Proof.
  split; [apply reachable_done99|].
  destruct (observe_then_mark_missing done99
              [(99%Z, ("build", 2000%Q, 3%Q, 2001%Q));
               (7%Z, ("sh", 1500%Q, 1%Q, 2002%Q))]
              [7%Z; 99%Z] (λ _, NoSuchProcess) 2003%Q reachable_done99)
    as (evs & self' & Hrun & Hall).
  { intros p Hp. csimpl in Hp.
    apply elem_of_cons in Hp as [->|Hp]; [right; left|].
    apply list_elem_of_singleton in Hp as ->. left. }
  exists evs, self'. split; [exact Hrun|].
  split; [apply (Hall 7%Z); right; left | apply (Hall 99%Z); left].
Defined.


Lemma recent_completions_spec self :
  reachable self →
  ∃ recs,
    recent_completions self = Some (recs, self) ∧
    Forall2 (λ r record, objs self !! r = Some record) (_completed self) recs ∧
    Forall (λ record, ∃ d t,
              actual_duration record = Some d ∧ completed_at record = Some t ∧
              d = py_max (t - create_time record)%Q 0%Q) recs.
Proof.
  intros Hreach. pose proof (reachable_wf _ Hreach) as Hwf.
  destruct (mapM_is_Some_2 (λ r, objs self !! r) (_completed self)) as [recs Hrecs].
  { apply Forall_forall. intros r Hr.
    destruct (wf_completed _ Hwf _ Hr) as (? & ? & _). by eexists. }
  exists recs. unfold recent_completions. rewrite Hrecs. simpl.
  apply mapM_Some in Hrecs. split_and!; [done | done |].
  apply Forall_forall. intros record Hin.
  apply list_elem_of_lookup in Hin as [i Hi].
  destruct (Forall2_lookup_r _ _ _ _ _ Hrecs Hi) as (r & Hr & Hrec).
  destruct (wf_completed _ Hwf r) as (? & ? & [d Hd] & _);
    [by eapply list_elem_of_lookup_2|]. simplify_eq.
  destruct (reachable_duration _ _ _ Hreach Hrec d Hd) as (t & Ht & Heq).
  by exists d, t.
Qed.

(** X12. [recent_completions()] returns the records of the history, oldest
    first, at most [completed_max] of them, and leaves the tracker alone;
    each of them is "completed", with a duration that is not negative. *)
Theorem recent_completions_completed self :
  reachable self →
  ∃ recs,
    recent_completions self = Some (recs, self) ∧
    Forall2 (λ r record, objs self !! r = Some record) (_completed self) recs ∧
    length recs ≤ completed_max self ∧
    Forall (λ record, status record = "completed" ∧
              ∃ d, actual_duration record = Some d ∧ (0 <= d)%Q) recs.
Proof.
  intros Hreach. pose proof (reachable_wf _ Hreach) as Hwf.
  destruct (recent_completions_spec self Hreach) as (recs & Hrun & Hrecs & Hall).
  exists recs. split_and!; [done | done | |].
  - rewrite <- (Forall2_length _ _ _ Hrecs). apply Hwf.
  - eapply Forall_impl; [exact Hall|]. intros record (d & t & Hd & _ & ->).
    unfold status. rewrite Hd. split; [done|]. eexists. split; [done|].
    apply py_max_nonneg.
Qed.

Lemma recent_completions_completed_witness :
  reachable twice99 ∧
  ∃ recs, recent_completions twice99 = Some (recs, twice99) ∧ length recs ≤ 20.
Proof.
  split; [apply reachable_twice99|].
  destruct (recent_completions_completed twice99 reachable_twice99)
    as (recs & Hrun & _ & Hlen & _).
  exists recs. split; [exact Hrun | exact Hlen].
Defined.

(** X13. The "recent_completions" feed of [ws_live]: every entry that
    [_serialize_completion] builds from [recent_completions()] has status
    "completed", an actual time that is set and not negative, a completion
    time that is set, and duration_error = actual - predicted. *)
Theorem recent_feed_is_complete self :
  reachable self →
  ∃ feed,
    recent_feed self = Some (feed, self) ∧
    length feed = length (_completed self) ∧
    Forall (λ c, turnaround_status c = "completed" ∧
              ∃ a t, actual_turnaround_time c = Some a ∧ (0 <= a)%Q ∧
                     c_completed_at c = Some t ∧
                     duration_error c = Some (a - predicted_turnaround_time c)%Q)
           feed.
Proof.
  intros Hreach.
  destruct (recent_completions_spec self Hreach) as (recs & Hrun & Hrecs & Hall).
  exists (_serialize_completion <$> recs). unfold recent_feed. rewrite Hrun.
  split_and!; [done | |].
  - by rewrite length_fmap, <- (Forall2_length _ _ _ Hrecs).
  - apply Forall_fmap. eapply Forall_impl; [exact Hall|].
    intros record (d & t & Hd & Ht & ->). simpl. unfold status. rewrite Hd, Ht.
    split; [done|]. eexists _, _. split_and!; try done. apply py_max_nonneg.
Qed.

Lemma recent_feed_is_complete_witness :
  reachable twice99 ∧
  ∃ feed, recent_feed twice99 = Some (feed, twice99) ∧ length feed = 2.
Proof.
  split; [apply reachable_twice99|].
  destruct (recent_feed_is_complete twice99 reachable_twice99)
    as (feed & Hrun & Hlen & _).
  exists feed. split; [exact Hrun | exact Hlen].
Defined.

(** X14. Closing is visible to the lookups: when [mark_missing] closes the
    record of a pid that has no earlier completion in the history, and the
    history has room for everything active, the pid is reported
    "completed" afterwards, with elapsed time max(now - create_time, 0)
    whatever the clock reads later. *)
Theorem closed_then_completed self l psutil now p r record clock :
  reachable self →
  dict_get (_active self) p = Some r →
  objs self !! r = Some record →
  p ∉ l →
  psutil p = NoSuchProcess ∨
    (∃ t, psutil p = CreateTime t ∧
          py_gt (py_abs (t - create_time record)%Q) 1%Q = true) →
  (∀ r' record', r' ∈ _completed self → objs self !! r' = Some record' →
                 pid record' ≠ p) →
  length (_completed self) + length (_active self) ≤ completed_max self →
  ∃ evs self',
    mark_missing l psutil now self = Some (evs, self') ∧
    status_for p self' = Some ("completed", self') ∧
    current_elapsed p clock self'
      = Some (Some (py_max (now - create_time record)%Q 0%Q), self').
Proof.
  intros Hwf%reachable_wf Hget Hrec Hmiss Hgone Hfresh Hroom.
  assert (verdict (psutil p) (create_time record) = true) as Hv.
  { unfold verdict. by destruct Hgone as [->|(t & -> & ?)]. }
  destruct (mark_missing_closed l psutil now self p r record Hwf Hget Hrec Hmiss Hv)
    as (evs & self' & Hrun & Hwf' & Hget' & _ & Hrec' & Hin).
  destruct (mark_missing_spec l psutil now self Hwf)
    as (? & ? & ? & Hev & _ & _ & Hc & _ & Ho). simplify_eq.
  exists evs, self'. split; [done|].
  rewrite Hev in Hin.
  assert (_completed self' = _completed self ++ closing l psutil self) as Hc'.
  { rewrite Hc, deque_extend_drop by apply Hwf.
    replace (length (_completed self ++ closing l psutil self)
             - completed_max self) with 0; [done|].
    rewrite length_app. unfold closing. rewrite length_fmap.
    pose proof (length_filter
      (λ kv, doomed (list_to_set l) psutil (objs self) kv) (_active self)). lia. }
  apply list_elem_of_split in Hin as (c1 & c2 & Hsplit).
  assert (find_completed (objs self') (_completed self') p
          = Some (Some (complete now record))) as Hfind.
  { rewrite Hc', Hsplit, (assoc_L (++)).
    apply find_completed_first; [|done|by destruct (wf_active_get _ _ _ Hwf Hget)
                                          as (? & ? & ? & _); simplify_eq].
    intros r' [Hr'|Hr']%elem_of_app.
    - destruct (wf_completed _ Hwf _ Hr') as (rec' & Hrec'0 & _).
      rewrite Ho, Hrec'0. case_decide; eexists; (split; [done|]); simpl;
        by eapply Hfresh.
    - assert (r' ∈ closing l psutil self) as Hcl.
      { rewrite Hsplit, elem_of_app. by left. }
      pose proof Hcl as Hact%closing_active.
      apply list_elem_of_fmap in Hact as ([p' r''] & Heq & Hact).
      simpl in Heq. subst r''.
      destruct (wf_active _ Hwf _ _ Hact) as (rec' & Hrec'0 & Hpid' & _).
      rewrite Ho, decide_True, Hrec'0 by done. eexists. split; [done|]. simpl.
      rewrite Hpid'. intros ->.
      apply (dict_get_elem _ _ _ (wf_keys _ Hwf)) in Hact. simplify_eq.
      pose proof (closing_NoDup l psutil self Hwf) as Hnd.
      rewrite Hsplit in Hnd. apply NoDup_app in Hnd as (_ & Hdisj & _).
      apply (Hdisj r Hr'). left. }
  unfold status_for, current_elapsed. by rewrite Hget', Hfind.
Qed.

Lemma closed_then_completed_witness :
  reachable tracker99 ∧ (99%Z ∉ @nil Z) ∧
  length (_completed tracker99) + length (_active tracker99)
    ≤ completed_max tracker99 ∧
  ∃ evs self',
    mark_missing [] (λ _, NoSuchProcess) 1010%Q tracker99 = Some (evs, self') ∧
    status_for 99 self' = Some ("completed", self').
Proof.
  split; [apply reachable_tracker99|]. split; [apply not_elem_of_nil|].
  split; [simpl; lia|].
  destruct (closed_then_completed tracker99 [] (λ _, NoSuchProcess) 1010%Q
              99 0 record99 0%Q reachable_tracker99 eq_refl eq_refl)
    as (evs & self' & Hrun & Hst & _).
  - apply not_elem_of_nil.
  - by left.
  - intros r' record' Hin. by apply elem_of_nil in Hin.
  - simpl. lia.
  - exists evs, self'. split; [exact Hrun | exact Hst].
Defined.

(** ** The order of the sort keys *)

Lemma py_gt_true x y : py_gt x y = true ↔ (y < x)%Q.
Proof.
  unfold py_gt. rewrite negb_true_iff. split.
  - intros Hf. apply Qnot_le_lt. intros Hle. apply Qle_bool_iff in Hle. congruence.
  - intros Hlt. destruct (Qle_bool x y) eqn:Hle; [|done].
    apply Qle_bool_iff in Hle. lra.
Qed.

Lemma py_gt_false x y : py_gt x y = false ↔ (x <= y)%Q.
Proof. unfold py_gt. rewrite negb_false_iff. apply Qle_bool_iff. Qed.

Lemma string_compare_refl s : String.compare s s = Eq.
Proof.
  pose proof (String.compare_antisym s s) as H.
  by destruct (String.compare s s).
Qed.

Lemma string_ltb_lt a b :
  String.ltb a b = true ↔ OrderedTypeEx.String_as_OT.lt a b.
Proof.
  rewrite <- OrderedTypeEx.String_as_OT.cmp_lt.
  unfold String.ltb, OrderedTypeEx.String_as_OT.cmp.
  by destruct (String.compare a b).
Qed.

Lemma string_ltb_asym a b : String.ltb a b = true → String.ltb b a = false.
Proof.
  unfold String.ltb. rewrite (String.compare_antisym b a).
  by destruct (String.compare a b).
Qed.

(** not [b < a] and not [c < b] give not [c < a] *)
Lemma string_ltb_negtrans a b c :
  String.ltb b a = false → String.ltb c b = false → String.ltb c a = false.
Proof.
  intros Hba Hcb. destruct (String.ltb c a) eqn:Hca; [|done].
  apply string_ltb_lt in Hca.
  unfold String.ltb in Hba. destruct (String.compare b a) eqn:Hcmp; [| done |].
  - apply String.compare_eq_iff in Hcmp as ->.
    apply string_ltb_lt in Hca. congruence.
  - assert (String.ltb a b = true) as Hab.
    { unfold String.ltb. rewrite String.compare_antisym, Hcmp. done. }
    apply string_ltb_lt in Hab.
    pose proof (OrderedTypeEx.String_as_OT.lt_trans _ _ _ Hca Hab) as Hcb'.
    apply string_ltb_lt in Hcb'. congruence.
Qed.

(** On values of one field the tuple comparison never raises. *)
Lemma tuple_lt_compat v1 v2 :
  compat v1 v2 →
  tuple_lt (is_none v1, v1) (is_none v2, v2) = Some (key_ltb v1 v2).
Proof.
  unfold tuple_lt.
  destruct v1 as [|a|a|a], v2 as [|b|b|b]; simpl; try done; intros _.
  - destruct (a =? b)%Z eqn:Heq; simpl; [|done].
    apply Z.eqb_eq in Heq as ->. by rewrite Z.ltb_irrefl.
  - destruct (Qeq_bool a b) eqn:Heq; simpl; [|done].
    apply Qeq_bool_iff in Heq. symmetry. f_equal. apply py_gt_false. lra.
  - destruct (String.eqb a b) eqn:Heq; simpl; [|done].
    apply String.eqb_eq in Heq as ->.
    unfold String.ltb. by rewrite string_compare_refl.
Qed.

Lemma key_ltb_asym v1 v2 :
  compat v1 v2 → key_ltb v1 v2 = true → key_ltb v2 v1 = false.
Proof.
  destruct v1 as [|a|a|a], v2 as [|b|b|b]; simpl; try done; intros _.
  - rewrite Z.ltb_lt, Z.ltb_ge. lia.
  - rewrite py_gt_true, py_gt_false. lra.
  - apply string_ltb_asym.
Qed.

Lemma key_ltb_negtrans v1 v2 v3 :
  compat v1 v2 → compat v2 v3 → compat v1 v3 →
  key_ltb v2 v1 = false → key_ltb v3 v2 = false → key_ltb v3 v1 = false.
Proof.
  destruct v1 as [|a|a|a], v2 as [|b|b|b], v3 as [|c|c|c]; simpl; try done;
    intros _ _ _.
  - rewrite !Z.ltb_ge. lia.
  - rewrite !py_gt_false. lra.
  - apply string_ltb_negtrans.
Qed.

Lemma get_compat p1 p2 key :
  compat (process_manager.get p1 key) (process_manager.get p2 key).
Proof.
  unfold process_manager.get. repeat case_decide; try done.
  - by destruct (process_manager.name p1), (process_manager.name p2).
  - by destruct (process_manager.cpu_percent p1), (process_manager.cpu_percent p2).
  - by destruct (process_manager.memory_percent p1),
         (process_manager.memory_percent p2).
  - by destruct (process_manager.create_time p1), (process_manager.create_time p2).
Qed.

(** ** [list.sort] on keys that never raise *)

Lemma StronglySorted_reverse {A} (R : relation A) (l : list A) :
  StronglySorted R l → StronglySorted (flip R) (reverse l).
Proof.
  induction 1 as [|x l Hl IH Hx]; [constructor|].
  rewrite reverse_cons. apply StronglySorted_app_2; [|done|repeat constructor].
  intros y z Hyl Hz. apply list_elem_of_singleton in Hz. subst z.
  rewrite elem_of_reverse in Hyl. rewrite Forall_forall in Hx.
  exact (Hx y Hyl).
Qed.

Section list_sort.
Context {A : Type} (val : A → value).
Hypothesis val_compat : ∀ x y, compat (val x) (val y).

Lemma sort_insert_spec (x : A) (s : list A) :
  StronglySorted (ascending val) s →
  ∃ s', sort_insert (keyed val x) (keyed val <$> s) = Some (keyed val <$> s') ∧
        s' ≡ₚ x :: s ∧ StronglySorted (ascending val) s'.
Proof.
  induction 1 as [|y s Hs IH Hy]; csimpl.
  - exists [x]. split_and!; [done | done | repeat constructor].
  - rewrite (tuple_lt_compat _ _ (val_compat y x)). simpl.
    destruct (key_ltb (val y) (val x)) eqn:Hlt.
    + destruct IH as (s' & -> & Hperm & Hs'). simpl.
      exists (y :: s'). split_and!; [done | by rewrite Hperm, Permutation_swap |].
      constructor; [done|]. rewrite Hperm. constructor; [|done].
      by apply key_ltb_asym.
    + exists (x :: y :: s). split_and!; [done | done |].
      constructor; [by constructor|]. constructor; [done|].
      eapply Forall_impl; [exact Hy|]. intros z Hyz.
      by eapply (key_ltb_negtrans (val x) (val y) (val z)).
Qed.

Lemma stable_sort_spec (l : list A) :
  ∃ s, stable_sort (keyed val <$> l) = Some (keyed val <$> s) ∧
       s ≡ₚ l ∧ StronglySorted (ascending val) s.
Proof.
  induction l as [|x l (s & Hs & Hperm & Hsorted)]; csimpl.
  - exists []. split_and!; [done | done | constructor].
  - rewrite Hs. simpl.
    destruct (sort_insert_spec x s Hsorted) as (s' & -> & Hperm' & Hs').
    exists s'. split_and!; [done | by rewrite Hperm', Hperm | done].
Qed.

Lemma list_sort_spec (rev : bool) (l : list A) :
  ∃ l', list_sort (λ x, (is_none (val x), val x)) rev l = Some l' ∧
        l' ≡ₚ l ∧
        StronglySorted (if rev then flip (ascending val) else (ascending val)) l'.
Proof.
  unfold list_sort. fold (keyed val).
  assert (∀ s : list A, (keyed val <$> s).*2 = s) as Hsnd.
  { intros s. rewrite <- list_fmap_compose. apply list_fmap_id. }
  destruct rev.
  - rewrite <- fmap_reverse.
    destruct (stable_sort_spec (reverse l)) as (s & -> & Hperm & Hs). simpl.
    exists (reverse s). rewrite <- fmap_reverse, Hsnd.
    split_and!; [done | by rewrite reverse_Permutation, Hperm, reverse_Permutation |].
    by apply StronglySorted_reverse.
  - destruct (stable_sort_spec l) as (s & -> & Hperm & Hs). simpl.
    exists s. by rewrite Hsnd.
Qed.
End list_sort.

(** ** Slices *)

Lemma py_slice_take_drop {A} (l : list A) (start stop : Z) :
  (0 ≤ start)%Z → (start ≤ stop)%Z →
  py_slice l start stop
  = take (Z.to_nat (stop - start)) (drop (Z.to_nat start) l).
Proof.
  intros H0 Hle. unfold py_slice, slice_index.
  rewrite (proj2 (Z.ltb_ge start 0)) by done.
  rewrite (proj2 (Z.ltb_ge stop 0)) by lia.
  destruct (decide (Z.of_nat (length l) ≤ start)%Z) as [Hge|Hlt].
  - rewrite !Z.min_r by lia. rewrite Z.sub_diag. simpl.
    rewrite (drop_ge l (Z.to_nat start)) by lia. by rewrite take_nil.
  - rewrite (Z.min_l start) by lia.
    destruct (decide (stop ≤ Z.of_nat (length l))%Z).
    + by rewrite Z.min_l by lia.
    + rewrite Z.min_r by lia.
      rewrite !take_ge; [done | |]; rewrite length_drop; lia.
Qed.

Lemma py_slice_prefix {A} (l : list A) (n : Z) :
  py_slice l 0 (Z.max 0 n) = take (Z.to_nat n) l.
Proof.
  rewrite py_slice_take_drop by lia. simpl. f_equal. lia.
Qed.

(** ** Sorting, paging and picking processes *)

Lemma sort_processes_spec sort_by order procs :
  ∃ sorted,
    process_manager.sort_processes sort_by order procs = Some sorted ∧
    sorted ≡ₚ procs ∧
    StronglySorted (in_order sort_by order) sorted.
Proof.
  unfold process_manager.sort_processes.
  destruct (list_sort_spec (λ p, process_manager.get p sort_by)
              (λ p q, get_compat p q sort_by)
              (bool_decide (order = "desc")) procs) as (sorted & Hrun & Hperm & Hs).
  exists sorted. split_and!; [exact Hrun | done |].
  rewrite <- (list_fmap_id sorted).
  eapply StronglySorted_fmap; [|exact Hs].
  intros p q. unfold in_order, key_le, process_manager.sort_key, flip.
  destruct (bool_decide (order = "desc")); simpl; intros Hpq;
    rewrite tuple_lt_compat by apply get_compat; by rewrite Hpq.
Qed.

(** X15. The sort of [get_processes] and [pick_top_processes] never raises, so
    the [except] fallback is never taken: for every list of process dicts,
    sort field and order it returns a permutation of the list in which no
    later process has a smaller key (a greater key for "desc") than an
    earlier one. *)
Theorem sort_processes_sorted sort_by order procs :
  ∃ sorted,
    process_manager.sort_processes sort_by order procs = Some sorted ∧
    sorted ≡ₚ procs ∧
    StronglySorted (in_order sort_by order) sorted ∧
    ∀ i j p q, sorted !! i = Some p → sorted !! j = Some q → i < j →
      if bool_decide (order = "desc")
      then tuple_lt (process_manager.sort_key sort_by p)
                    (process_manager.sort_key sort_by q) = Some false
      else tuple_lt (process_manager.sort_key sort_by q)
                    (process_manager.sort_key sort_by p) = Some false.
Proof.
  destruct (sort_processes_spec sort_by order procs) as (sorted & Hrun & Hperm & Hs).
  exists sorted. split_and!; try done.
  intros i j p q Hi Hj Hlt.
  rewrite <- (take_drop_middle _ _ _ Hi) in Hs, Hj.
  apply StronglySorted_app_1_r, StronglySorted_cons in Hs as [Hall _].
  rewrite lookup_app_r in Hj by (rewrite length_take; lia).
  rewrite length_take_le in Hj by (apply lookup_lt_Some in Hi; lia).
  destruct (j - i) as [|k] eqn:Hk; [lia|]. simpl in Hj.
  rewrite Forall_forall in Hall.
  specialize (Hall q (list_elem_of_lookup_2 _ _ _ Hj)).
  unfold in_order, key_le in Hall. by destruct (bool_decide (order = "desc")).
Qed.

(** X16. Processes without a value for the sort field are kept together at one
    end: in ascending order everything after such a process also lacks the
    value, in descending order everything before it does. *)
Theorem none_values_together sort_by order procs l1 p l2 :
  process_manager.sort_processes sort_by order procs = Some (l1 ++ p :: l2) →
  process_manager.get p sort_by = VNone →
  ∀ q, q ∈ (if bool_decide (order = "desc") then l1 else l2) →
       process_manager.get q sort_by = VNone.
Proof.
  intros Hrun Hp q Hq.
  destruct (sort_processes_spec sort_by order procs) as (sorted & Hrun' & _ & Hs).
  simplify_eq.
  assert (tuple_lt (process_manager.sort_key sort_by q)
                   (process_manager.sort_key sort_by p) = Some false) as Hlt.
  { unfold in_order, key_le in Hs. destruct (bool_decide (order = "desc")).
    - apply (StronglySorted_app_1_elem_of _ _ _ q p Hs Hq). left.
    - apply StronglySorted_app_1_r, StronglySorted_cons in Hs as [Hall _].
      rewrite Forall_forall in Hall. by apply Hall. }
  unfold process_manager.sort_key, tuple_lt in Hlt. rewrite Hp in Hlt.
  by destruct (process_manager.get q sort_by).
Qed.

Lemma none_values_together_witness :
  process_manager.sort_processes "cpu_percent" "asc"
    (process_manager.list_processes enum3) = Some ([proc2] ++ proc1 :: [proc3]) ∧
  process_manager.get proc1 "cpu_percent" = VNone ∧
  process_manager.get proc3 "cpu_percent" = VNone.
Proof.
  assert (process_manager.sort_processes "cpu_percent" "asc"
    (process_manager.list_processes enum3) = Some ([proc2] ++ proc1 :: [proc3]))
    as Hrun by reflexivity.
  split; [exact Hrun|]. split; [reflexivity|].
  apply (none_values_together "cpu_percent" "asc" _ [proc2] proc1 [proc3] Hrun eq_refl).
  left.
Defined.

(** X17. [pick_top_processes] returns the first [top_n] processes of the sorted
    list, all of them when there are fewer and none when [top_n <= 0]; no
    process left out comes before a returned one in the order asked for. *)
Theorem pick_top_processes_spec top_n sort_by order process_iter :
  ∃ sorted picked,
    process_manager.sort_processes sort_by order
      (process_manager.list_processes process_iter) = Some sorted ∧
    process_manager.pick_top_processes top_n sort_by order process_iter
      = Some picked ∧
    picked = take (Z.to_nat top_n) sorted ∧
    length picked
      = Z.to_nat top_n `min` length (process_manager.list_processes process_iter) ∧
    ((top_n ≤ 0)%Z → picked = []) ∧
    (∀ p q, p ∈ picked → q ∈ drop (Z.to_nat top_n) sorted →
            in_order sort_by order p q).
Proof.
  destruct (sort_processes_spec sort_by order
              (process_manager.list_processes process_iter))
    as (sorted & Hrun & Hperm & Hs).
  exists sorted, (take (Z.to_nat top_n) sorted).
  unfold process_manager.pick_top_processes. rewrite Hrun. simpl.
  rewrite py_slice_prefix. split_and!; try done.
  - by rewrite length_take, Hperm.
  - intros Hle. by replace (Z.to_nat top_n) with 0 by lia.
  - intros p q Hp Hq. rewrite <- (take_drop (Z.to_nat top_n) sorted) in Hs.
    by eapply StronglySorted_app_1_elem_of.
Qed.

Lemma get_processes_some pg sz sort_by order process_iter sorted :
  (0 < pg)%Z → (0 < sz)%Z →
  process_manager.sort_processes sort_by order
    (process_manager.list_processes process_iter) = Some sorted →
  get_processes pg sz sort_by order process_iter
  = Some {| page := pg; page_size := sz; total := length sorted;
            results := take (Z.to_nat sz)
                         (drop ((Z.to_nat pg - 1) * Z.to_nat sz) sorted) |}.
Proof.
  intros Hpg Hsz Hrun. unfold get_processes. rewrite Hrun. simpl.
  rewrite py_slice_take_drop by nia.
  replace ((pg - 1) * sz + sz - (pg - 1) * sz)%Z with sz by lia.
  rewrite Z2Nat.inj_mul, Z2Nat.inj_sub by lia. done.
Qed.

(** X18. [GET /processes] with [page > 0] and [page_size > 0]: [total] is the
    number of processes that could be listed, whatever the page and the
    order; [results] is the slice of the sorted list that starts at
    [(page - 1) * page_size], at most [page_size] long, exactly that long
    while the page lies inside the list and empty when it starts past
    the end. *)
Theorem get_processes_page pg sz sort_by order process_iter :
  (0 < pg)%Z → (0 < sz)%Z →
  ∃ sorted r,
    process_manager.sort_processes sort_by order
      (process_manager.list_processes process_iter) = Some sorted ∧
    get_processes pg sz sort_by order process_iter = Some r ∧
    page r = pg ∧ page_size r = sz ∧
    total r = length (process_manager.list_processes process_iter) ∧
    results r = take (Z.to_nat sz) (drop ((Z.to_nat pg - 1) * Z.to_nat sz) sorted) ∧
    length (results r) ≤ Z.to_nat sz ∧
    ((pg * sz ≤ Z.of_nat (total r))%Z → length (results r) = Z.to_nat sz) ∧
    ((Z.of_nat (total r) ≤ (pg - 1) * sz)%Z → results r = []).
Proof.
  intros Hpg Hsz.
  destruct (sort_processes_spec sort_by order
              (process_manager.list_processes process_iter))
    as (sorted & Hrun & Hperm & _).
  eexists sorted, _. split; [done|].
  split; [by apply get_processes_some|]. simpl.
  split_and!; try done.
  - by rewrite Hperm.
  - rewrite length_take. lia.
  - intros Hin. rewrite length_take, length_drop. nia.
  - intros Hout. rewrite drop_ge by nia. by rewrite take_nil.
Qed.

Lemma get_processes_page_witness :
  (0 < 2)%Z ∧ (0 < 2)%Z ∧
  ∃ r, get_processes 2 2 "cpu_percent" "desc" enum3 = Some r ∧
       total r = 3 ∧ results r = [proc2].
Proof.
  split; [lia|]. split; [lia|].
  destruct (get_processes_page 2 2 "cpu_percent" "desc" enum3)
    as (sorted & r & Hsort & Hrun & _ & _ & Htot & Hres & _); [lia | lia |].
  exists r. split; [exact Hrun|]. split; [exact Htot|].
  rewrite Hres.
  assert (Some sorted = Some [proc1; proc3; proc2]) as [= ->]
    by (rewrite <- Hsort; reflexivity).
  reflexivity.
Defined.




(** X20. [compute_rr_features_for_pid] returns None exactly when psutil raised
    in the snapshot; otherwise burst is user + system CPU time and the
    arrival age is max(now - create_time, 0): never negative, zero for a
    create_time later than the clock reading. *)
Theorem features_for_pid res quantum now load :
  (process_manager.compute_rr_features_for_pid res quantum now load = None ↔
   res = process_manager.SnapshotNoSuchProcess ∨
   res = process_manager.SnapshotAccessDenied) ∧
  ∀ p nm user system ct,
    res = process_manager.Snapshot p nm user system ct →
    ∃ f, process_manager.compute_rr_features_for_pid res quantum now load = Some f ∧
         process_manager.mean_burst f = (user + system)%Q ∧
         (0 <= process_manager.mean_arrival f)%Q ∧
         ((ct <= now)%Q → (process_manager.mean_arrival f == now - ct)%Q) ∧
         ((now <= ct)%Q → (process_manager.mean_arrival f == 0)%Q).
Proof.
  split.
  - unfold process_manager.compute_rr_features_for_pid.
    destruct res; simpl; split; try done; auto. by intros [?|?].
  - intros p nm user system ct ->. eexists. split; [reflexivity|]. simpl.
    split; [done|]. split; [apply py_max_nonneg|].
    unfold py_max. destruct (py_gt 0 (now - ct)) eqn:Hgt.
    + apply py_gt_true in Hgt. split; intros; lra.
    + apply py_gt_false in Hgt. split; intros; lra.
Qed.

Lemma features_for_pid_witness :
  ∃ f, process_manager.compute_rr_features_for_pid
         (process_manager.Snapshot 7 "sh" 1%Q 2%Q 50%Q) 1%Q 40%Q 10%Q = Some f ∧
       (process_manager.mean_arrival f == 0)%Q.
Proof.
  destruct (proj2 (features_for_pid (process_manager.Snapshot 7 "sh" 1%Q 2%Q 50%Q)
                     1%Q 40%Q 10%Q) 7%Z "sh" 1%Q 2%Q 50%Q eq_refl)
    as (f & Hrun & _ & _ & _ & Hzero).
  exists f. split; [exact Hrun|]. apply Hzero. discriminate.
Defined.

(** ** Stability of the sort *)

Section list_sort_stable.
Context {A : Type} (val : A → value).
Hypothesis val_compat : ∀ x y, compat (val x) (val y).

Lemma sort_insert_stable (x : A) (s : list A) :
  ∃ s', sort_insert (keyed val x) (keyed val <$> s) = Some (keyed val <$> s') ∧
        ∀ z, filter (tie val z) s' = filter (tie val z) (x :: s).
Proof.
  induction s as [|y s (t & Ht & Hf)]; csimpl.
  - by exists [x].
  - rewrite (tuple_lt_compat _ _ (val_compat y x)). simpl.
    destruct (key_ltb (val y) (val x)) eqn:Hlt.
    + rewrite Ht. simpl. exists (y :: t). split; [done|]. intros z.
      rewrite !filter_cons, Hf, !filter_cons.
      repeat case_decide; try done.
      (* a tie val of both [x] and [y] would make [y < x] impossible *)
      exfalso. unfold tie in *.
      assert (key_ltb (val y) (val x) = false); [|congruence].
      apply (key_ltb_negtrans (val x) (val z) (val y)); try apply val_compat;
        tauto.
    + by exists (x :: y :: s).
Qed.

Lemma stable_sort_stable (l : list A) :
  ∃ s, stable_sort (keyed val <$> l) = Some (keyed val <$> s) ∧
       ∀ z, filter (tie val z) s = filter (tie val z) l.
Proof.
  induction l as [|x l (s0 & Hs0 & Hf0)]; csimpl.
  - by exists [].
  - rewrite Hs0. simpl.
    destruct (sort_insert_stable x s0) as (s & -> & Hf).
    exists s. split; [done|]. intros z.
    by rewrite Hf, !filter_cons, Hf0.
Qed.

Lemma list_sort_stable (rev : bool) (l : list A) :
  ∃ l', list_sort (λ x, (is_none (val x), val x)) rev l = Some l' ∧
        ∀ z, filter (tie val z) l' = filter (tie val z) l.
Proof.
  unfold list_sort. fold (keyed val).
  assert (∀ s : list A, (keyed val <$> s).*2 = s) as Hsnd.
  { intros s. rewrite <- list_fmap_compose. apply list_fmap_id. }
  destruct rev.
  - rewrite <- fmap_reverse.
    destruct (stable_sort_stable (reverse l)) as (s & -> & Hf). simpl.
    exists (reverse s). rewrite <- fmap_reverse, Hsnd. split; [done|]. intros z.
    rewrite filter_reverse, Hf, filter_reverse. apply reverse_involutive.
  - destruct (stable_sort_stable l) as (s & -> & Hf). simpl.
    exists s. by rewrite Hsnd.
Qed.
End list_sort_stable.

(** X21. The sort is stable in both orders: processes whose keys tie with a
    given process stay in the order of the enumeration. So with a sort
    field that no process has, the list comes back unchanged. *)
Theorem sort_processes_stable sort_by order procs :
  ∃ sorted,
    process_manager.sort_processes sort_by order procs = Some sorted ∧
    (∀ p, filter (same_key sort_by p) sorted = filter (same_key sort_by p) procs) ∧
    ((∀ q, q ∈ procs → process_manager.get q sort_by = VNone) → sorted = procs).
Proof.
  destruct (sort_processes_spec sort_by order procs) as (sorted & Hrun & Hperm & _).
  exists sorted. split; [done|].
  assert (∀ p, filter (same_key sort_by p) sorted
               = filter (same_key sort_by p) procs) as Hstable.
  { intros p.
    destruct (list_sort_stable (λ p, process_manager.get p sort_by)
                (λ p q, get_compat p q sort_by) (bool_decide (order = "desc")) procs)
      as (sorted' & Hrun' & Hst).
    assert (Some sorted' = Some sorted) as [= ->]
      by (rewrite <- Hrun, <- Hrun'; reflexivity).
    specialize (Hst p).
    etrans; [|etrans; [exact Hst|]]; apply list_filter_iff; intros q;
      unfold same_key, process_manager.sort_key;
      rewrite !tuple_lt_compat by apply get_compat;
      split; intros [? ?]; split; congruence. }
  split; [done|]. intros Hnone.
  destruct procs as [|p procs'] eqn:Hprocs.
  { by apply Permutation_nil_r in Hperm. }
  rewrite <- Hprocs in *.
  assert (∀ l : list process_manager.process,
            (∀ q, q ∈ l → q ∈ procs) → filter (same_key sort_by p) l = l) as Hall.
  { intros l Hl. apply filter_all. intros q Hq%Hl.
    unfold same_key, process_manager.sort_key.
    rewrite (Hnone q Hq), (Hnone p) by (rewrite Hprocs; left). done. }
  transitivity (filter (same_key sort_by p) sorted).
  - symmetry. apply Hall. intros q Hq. by rewrite <- Hperm.
  - rewrite Hstable. by apply Hall.
Qed.
